(** * localtunnel-server: the tunnel socket pool and the request dispatcher

    A shallow embedding of [src/proxy.js] (the per-client [Proxy]: listener,
    idle sockets, waiter queue, idle-destroy timer) and of the server module
    (the dispatcher [maybe_bounce], the registry function [new_client] and the
    two management routes that create tunnels).

    JavaScript objects that are mutated in place live in an explicit state;
    every method is a computation in a small state-and-exception monad, so a
    [throw] (here: the [TypeError] of calling a method that an object does not
    have) cuts the rest of the method short exactly as in the source. *)

From Stdlib Require Import String Ascii ZArith List Lia Bool.
From stdpp Require Import base gmap sets list strings.

Open Scope string_scope.
Open Scope list_scope.

(** ** Exceptions and the monad *)

Inductive exn :=
| TypeError (msg : string)
| Error (msg : string).

Inductive Res (S A : Type) :=
| Ok (a : A) (s : S)
| Throw (e : exn) (s : S).
Arguments Ok {S A} a s.
Arguments Throw {S A} e s.

Definition M (S A : Type) : Type := S -> Res S A.

Definition ret {S A} (a : A) : M S A := fun s => Ok a s.

Definition bind {S A B} (m : M S A) (k : A -> M S B) : M S B :=
  fun s => match m s with
           | Ok a s' => k a s'
           | Throw e s' => Throw e s'
           end.

Definition throw {S A} (e : exn) : M S A := fun s => Throw e s.

(** [try { m } catch (err) { h err }] *)
Definition try_catch {S A} (m : M S A) (h : exn -> M S A) : M S A :=
  fun s => match m s with
           | Ok a s' => Ok a s'
           | Throw e s' => h e s'
           end.

Definition get {S} : M S S := fun s => Ok s s.
Definition gets {S A} (f : S -> A) : M S A := fun s => Ok (f s) s.
Definition modify {S} (f : S -> S) : M S unit := fun s => Ok tt (f s).

Declare Scope js_scope.
Delimit Scope js_scope with js.
Notation "'do' x <- m ; k" := (bind m (fun x => k))
  (at level 10, x name, m at level 100, k at level 200,
   format "'[v' 'do'  x  <-  m ; '/' k ']'") : js_scope.
Open Scope js_scope.

(** [when b m]: [if (b) { m }] *)
Definition when {S} (b : bool) (m : M S unit) : M S unit :=
  if b then m else ret tt.

(** [xs.forEach(f)] for an [f] that does not touch [xs]. *)
Fixpoint forEach {S A} (f : A -> M S unit) (xs : list A) : M S unit :=
  match xs with
  | [] => ret tt
  | x :: xs' => do _ <- f x; forEach f xs'
  end.

(** The state in which a computation stops, whether it returned or threw. *)
Definition final {S A} (r : Res S A) : S :=
  match r with Ok _ s => s | Throw _ s => s end.

(** ** The winston logger

    Both modules build [logger = new winston.Logger({transports: [File]})]
    without custom levels, so of the names the sources call on it the
    object has those of the npm levels.  Calling any other property is a
    call of [undefined]. *)

Definition winston_levels : list string :=
  ["error"; "warn"; "info"; "verbose"; "debug"; "silly"].

Definition logger {S} (method : string) : M S unit :=
  if existsb (String.eqb method) winston_levels then ret tt
  else throw (TypeError ("logger." +:+ method +:+ " is not a function")).

(** ** Data model *)

(** A tunnel socket is a JavaScript object; the model names it by a number
    and keeps its mutable [destroyed] flag in the environment below. *)
Definition sock := nat.

(** What the dispatcher reads of an incoming request. *)
Record request := {
  method : string;
  url : string;
  httpVersion : string;
  rawHeaders : list string;
  host : option string            (* req.headers.host *)
}.

(** The closure that [maybe_bounce] passes to [next_socket].  It captures
    [req], [res], [sock] and the variable [finished]; [h_id] names the
    closure (and with it the external connection it serves), [h_res] says
    that [res] is an object and [h_sock] that [sock] is one. *)
Record handler := {
  h_id : nat;
  h_req : request;
  h_res : bool;
  h_sock : bool
}.

Inductive endpoint :=
| Tunnel (s : sock)
| Peer (p : nat).

(** Effects on objects outside the pool, in the order they happen. *)
Inductive action :=
| Invoke (h : nat) (arg : option sock)            (* handler(arg) *)
| SockEnd (s : sock)                              (* socket.end() *)
| Destroy (e : endpoint)                          (* .destroy() *)
| ConnDestroy (p : nat)                           (* req.connection.destroy() *)
| Respond (p : nat) (status : nat) (body : string)(* res.statusCode = ..; res.end(..) *)
| PipeTo (src dst : endpoint)                     (* src.pipe(dst) *)
| Write (dst : endpoint) (data : string)          (* dst.write(data) *)
| HttpRequest (p : nat) (s : sock)                (* http.request(opt) on the agent bound to s *)
| Emit (ev : string)                              (* self.emit(ev) *)
| Uncaught (e : exn).                             (* exception that left a callback *)

(** The promise returned by [handler(sock)]. *)
Inductive await :=
| Settled                 (* the async function returned *)
| Rejected                (* the async function threw *)
| AwaitTunnelEnd          (* await ... socket.once('end', resolve) *)
| AwaitClientRes.         (* await ... on_finished(client_res, resolve) *)

Record promise := {
  p_sock : sock;
  p_handler : handler;
  p_await : await
}.

(** [self.server], a [net.Server]: not yet listening; listening; not
    listening any more, with a 'close' event due as soon as no connection is
    left; not listening, with no 'close' event due. *)
Inductive listener := Unbound | Listening | Closing | Closed.

(** The fields of a [Proxy] object. *)
Record Proxy := {
  sockets : list sock;
  waiting : list handler;
  proxy_id : string;
  max_tcp_sockets : Z;
  server : listener;
  conn_timeout : bool;            (* a timer is armed *)
  started : bool
}.

(** The objects the callbacks of a [Proxy] reach, and two ghost fields. *)
Record Env := {
  destroyed : gset sock;          (* socket.destroyed *)
  finished : gset nat;            (* the variable [finished] of each closure *)
  pending : list promise;         (* promises whose finally-callback has not run *)
  trace : list action;
  admitted : list sock;           (* ghost: sockets that got close/error handlers *)
  closed : gset sock              (* ghost: sockets whose 'close' was emitted *)
}.

Record World := { self : Proxy; env : Env }.

Definition on_self (f : Proxy -> Proxy) (w : World) : World :=
  {| self := f (self w); env := env w |}.
Definition on_env (f : Env -> Env) (w : World) : World :=
  {| self := self w; env := f (env w) |}.

Definition with_sockets (f : list sock -> list sock) : World -> World :=
  on_self (fun p => {| sockets := f (sockets p); waiting := waiting p;
    proxy_id := proxy_id p; max_tcp_sockets := max_tcp_sockets p;
    server := server p; conn_timeout := conn_timeout p; started := started p |}).
Definition with_waiting (f : list handler -> list handler) : World -> World :=
  on_self (fun p => {| sockets := sockets p; waiting := f (waiting p);
    proxy_id := proxy_id p; max_tcp_sockets := max_tcp_sockets p;
    server := server p; conn_timeout := conn_timeout p; started := started p |}).
Definition with_server (l : listener) : World -> World :=
  on_self (fun p => {| sockets := sockets p; waiting := waiting p;
    proxy_id := proxy_id p; max_tcp_sockets := max_tcp_sockets p;
    server := l; conn_timeout := conn_timeout p; started := started p |}).
Definition with_conn_timeout (b : bool) : World -> World :=
  on_self (fun p => {| sockets := sockets p; waiting := waiting p;
    proxy_id := proxy_id p; max_tcp_sockets := max_tcp_sockets p;
    server := server p; conn_timeout := b; started := started p |}).
Definition with_started (b : bool) : World -> World :=
  on_self (fun p => {| sockets := sockets p; waiting := waiting p;
    proxy_id := proxy_id p; max_tcp_sockets := max_tcp_sockets p;
    server := server p; conn_timeout := conn_timeout p; started := b |}).

Definition with_destroyed (f : gset sock -> gset sock) : World -> World :=
  on_env (fun e => {| destroyed := f (destroyed e); finished := finished e;
    pending := pending e; trace := trace e; admitted := admitted e;
    closed := closed e |}).
Definition env_finished (f : gset nat -> gset nat) (e : Env) : Env :=
  {| destroyed := destroyed e; finished := f (finished e);
     pending := pending e; trace := trace e; admitted := admitted e;
     closed := closed e |}.
Definition with_finished (f : gset nat -> gset nat) : World -> World :=
  on_env (env_finished f).
Definition with_pending (f : list promise -> list promise) : World -> World :=
  on_env (fun e => {| destroyed := destroyed e; finished := finished e;
    pending := f (pending e); trace := trace e; admitted := admitted e;
    closed := closed e |}).
Definition env_trace (f : list action -> list action) (e : Env) : Env :=
  {| destroyed := destroyed e; finished := finished e;
     pending := pending e; trace := f (trace e); admitted := admitted e;
     closed := closed e |}.
Definition with_trace (f : list action -> list action) : World -> World :=
  on_env (env_trace f).
Definition with_admitted (f : list sock -> list sock) : World -> World :=
  on_env (fun e => {| destroyed := destroyed e; finished := finished e;
    pending := pending e; trace := trace e; admitted := f (admitted e);
    closed := closed e |}).
Definition with_closed (f : gset sock -> gset sock) : World -> World :=
  on_env (fun e => {| destroyed := destroyed e; finished := finished e;
    pending := pending e; trace := trace e; admitted := admitted e;
    closed := f (closed e) |}).

(** Append to the trace. *)
Definition emit (a : action) : M World unit :=
  modify (with_trace (fun t => t ++ [a])).

(** [socket.destroy()] on a tunnel socket: sets [destroyed]. *)
Definition destroy (s : sock) : M World unit :=
  do _ <- modify (with_destroyed (fun d => {[s]} ∪ d));
  emit (Destroy (Tunnel s)).

(** ** The handler of [maybe_bounce] *)

(** Modelled from the spec: [./lib/BindingAgent] is not among the sources.
    By the specification it makes the borrowed tunnel socket the sole
    transport of the HTTP client; [new BindingAgent], [http.request(opt)]
    and [req.pipe(client_req)] are recorded as one request on that socket. *)
Definition http_request_on (p : nat) (s : sock) : M World unit :=
  emit (HttpRequest p s).

Definition CRLF : string := String (ascii_of_nat 13) (String (ascii_of_nat 10) EmptyString).

(** for (let i=0 ; i < (req.rawHeaders.length-1) ; i+=2)
      arr.push(`${req.rawHeaders[i]}: ${req.rawHeaders[i+1]}`) *)
Fixpoint header_lines (raw : list string) : list string :=
  match raw with
  | k :: v :: rest => (k +:+ ": " +:+ v) :: header_lines rest
  | _ => []
  end.

(** [arr.join('\r\n')] for the [arr] built in the upgrade branch. *)
Definition preamble (req : request) : string :=
  String.concat CRLF
    ((method req +:+ " " +:+ url req +:+ " HTTP/" +:+ httpVersion req)
       :: header_lines (rawHeaders req) ++ [EmptyString; EmptyString]).

(** The body of [async (socket) => { ... }] up to its first [await] or its
    return; the result says what the returned promise waits for. *)
Definition bounce_handler (h : handler) (socket : option sock) : M World await :=
  do _ <- logger "info";
  do fin <- gets (fun w => bool_decide (h_id h ∈ finished (env w)));
  if fin then
    do _ <- logger "info";
    ret Settled
  else match socket with
  | None =>
      do _ <- when (h_res h)
                (do _ <- logger "error";
                 emit (Respond (h_id h) 504 EmptyString));
      do _ <- when (h_sock h)
                (do _ <- logger "info";
                 emit (Destroy (Peer (h_id h))));
      do _ <- logger "info";
      do _ <- emit (ConnDestroy (h_id h));
      ret Settled
  | Some s =>
      if negb (h_res h) then
        do _ <- logger "info";
        if h_sock h then
          do _ <- emit (PipeTo (Tunnel s) (Peer (h_id h)));
          do _ <- emit (PipeTo (Peer (h_id h)) (Tunnel s));
          do _ <- emit (Write (Tunnel s) (preamble (h_req h)));
          do _ <- logger "info";
          ret AwaitTunnelEnd
        else
          (* socket.pipe(null) *)
          throw (TypeError "Cannot read properties of null")
      else
        do _ <- logger "info";
        do _ <- http_request_on (h_id h) s;
        ret AwaitClientRes
  end.

(** [handler(arg)]: an async function never throws to its caller, it
    returns a rejected promise instead. *)
Definition invoke (h : handler) (arg : option sock) : M World await :=
  do _ <- emit (Invoke (h_id h) arg);
  try_catch (bounce_handler h arg) (fun _ => ret Rejected).

(** ** proxy.js *)

(** The options of the constructor; [opt.max_tcp_sockets] is a number, here
    an integer, or absent. *)
Record proxy_opt := {
  opt_id : string;
  opt_max_tcp_sockets : option Z
}.

(** The constructor.  [opt.max_tcp_sockets || 10]: an absent cap and the
    cap 0 are falsy and become 10; every other number is taken as it is, a
    negative one too. *)
Definition Proxy_new (opt : proxy_opt) : Proxy :=
  {| sockets := [];
     waiting := [];
     proxy_id := opt_id opt;
     max_tcp_sockets := match opt_max_tcp_sockets opt with
                        | Some n => if (n =? 0)%Z then 10%Z else n
                        | None => 10%Z
                        end;
     server := Unbound;
     conn_timeout := false;
     started := false |}.

Definition clearTimeout : M World unit := modify (with_conn_timeout false).
Definition setTimeout : M World unit := modify (with_conn_timeout true).

(** [self.server.close()], called without a callback.  A listening
    [net.Server] stops listening and emits 'close' once no connection is
    left.  On a server that is not listening the call does not throw: the
    error goes to the callback, and none is passed; the server emits 'close'
    again once no connection is left, also when it has emitted it before.
    Before [start] nobody listens for 'close', so nothing is due then. *)
Definition server_close : M World unit :=
  do w <- get;
  match server (self w) with
  | Unbound => ret tt
  | _ => modify (with_server Closing)
  end.

Definition shift_sockets : M World (option sock) :=
  do w <- get;
  match sockets (self w) with
  | [] => ret None
  | s :: rest => do _ <- modify (with_sockets (fun _ => rest)); ret (Some s)
  end.

Definition shift_waiting : M World (option handler) :=
  do w <- get;
  match waiting (self w) with
  | [] => ret None
  | h :: rest => do _ <- modify (with_waiting (fun _ => rest)); ret (Some h)
  end.

(** Proxy.prototype._maybe_destroy: re-arm the five second timer. *)
Definition _maybe_destroy : M World unit :=
  do _ <- logger "info";
  do _ <- clearTimeout;
  setTimeout.

(** Proxy.prototype._cleanup *)
Definition _cleanup : M World unit :=
  do _ <- logger "info";
  do _ <- clearTimeout;
  do w <- get;
  do _ <- forEach (fun h => do _ <- invoke h None; ret tt) (waiting (self w));
  emit (Emit "end").

(** The function passed to [setTimeout] in [_maybe_destroy]. *)
Definition on_timeout : M World unit :=
  try_catch
    (do _ <- logger "info";
     do _ <- clearTimeout;
     server_close)
    (fun err =>
     do _ <- logger "info";
     _cleanup).

Record start_info := { port : nat; max_conn_count : Z }.

(** Proxy.prototype.start; the value is what [cb] receives ([port] is the
    port the operating system picked for the listener). *)
Definition start (os_port : nat) : M World (exn + start_info) :=
  do _ <- logger "info";
  do w <- get;
  if started (self w) then
    do _ <- logger "error";
    ret (inl (Error "already started"))
  else
    do _ <- modify (with_started true);
    do _ <- modify (with_server Listening);
    do _ <- _maybe_destroy;
    do _ <- logger "info";
    ret (inr {| port := os_port; max_conn_count := max_tcp_sockets (self w) |}).

(** Proxy.prototype.next_socket, up to the call of the handler; the
    promise it builds is queued in [pending]. *)
Definition next_socket (handler : handler) : M World unit :=
  do sock <- shift_sockets;
  do _ <- logger "info";
  match sock with
  | None =>
      do _ <- logger "info";
      modify (with_waiting (fun q => q ++ [handler]))
  | Some s =>
      do a <- invoke handler (Some s);
      modify (with_pending (fun ps =>
        ps ++ [{| p_sock := s; p_handler := handler; p_await := a |}]))
  end.

(** Proxy.prototype._process_waiting *)
Definition _process_waiting : M World unit :=
  do wait_cb <- shift_waiting;
  match wait_cb with
  | Some h =>
      do _ <- logger "ingo";
      next_socket h
  | None => ret tt
  end.

(** The [.catch] callback of [next_socket]. *)
Definition next_socket_catch : M World unit := logger "error".

(** The [.finally] callback of [next_socket]. *)
Definition next_socket_finally (sock : sock) : M World unit :=
  do w <- get;
  do _ <- when (negb (bool_decide (sock ∈ destroyed (env w))))
            (do _ <- logger "info";
             modify (with_sockets (fun l => l ++ [sock])));
  do w' <- get;
  if (length (sockets (self w')) =? 0)%nat then
    logger "info"
  else
    _process_waiting.

(** [const idx = self.sockets.indexOf(socket);
     if (idx >= 0) self.sockets.splice(idx, 1)] *)
Fixpoint remove_first (s : sock) (l : list sock) : list sock :=
  match l with
  | [] => []
  | x :: rest => if decide (x = s) then rest else x :: remove_first s rest
  end.

(** The 'close' listener that [_handle_socket] puts on a socket. *)
Definition on_socket_close (socket : sock) : M World unit :=
  do _ <- logger "info";
  do _ <- modify (with_sockets (remove_first socket));
  do _ <- logger "info";
  do w <- get;
  when (length (sockets (self w)) =? 0)%nat
    (do _ <- logger "info";
     _maybe_destroy).

(** The 'error' listener that [_handle_socket] puts on a socket. *)
Definition on_socket_error (socket : sock) : M World unit :=
  do _ <- logger "error";
  destroy socket.

(** Proxy.prototype._handle_socket *)
Definition _handle_socket (socket : sock) : M World unit :=
  do w <- get;
  if (max_tcp_sockets (self w) <=? Z.of_nat (length (sockets (self w))))%Z then
    do _ <- logger "error";
    emit (SockEnd socket)
  else
    do _ <- logger "info";
    do _ <- clearTimeout;
    (* socket.once('close', ...); socket.on('error', ...) *)
    do _ <- modify (with_admitted (fun l => l ++ [socket]));
    do _ <- modify (with_sockets (fun l => l ++ [socket]));
    _process_waiting.

(** The 'error' listener of the listener. *)
Definition on_server_error (code : string) : M World unit :=
  when (bool_decide (code = "ECONNRESET") || bool_decide (code = "ETIMEDOUT"))
    (logger "error").

(** ** The event loop

    Node runs one callback at a time.  An [event] is one callback of the
    source being run by the runtime; [handle] is the source's callback,
    together with what the runtime itself does to the objects at that
    moment; [enabled] gives conditions without which the runtime cannot
    deliver the event. *)

Inductive event :=
| Start (os_port : nat)                 (* client.start(cb) *)
| Connection (s : sock)                 (* listener 'connection' *)
| ServerError (code : string)           (* listener 'error' *)
| NextSocket (h : handler)              (* client.next_socket(handler) in maybe_bounce *)
| PeerFinished (h : handler)            (* peer socket 'end' / on_finished(res) *)
| SocketError (s : sock)                (* tunnel socket 'error' *)
| SocketClose (s : sock)                (* tunnel socket 'close' *)
| TunnelEnd (s : sock) (flushed : bool) (* tunnel socket 'end'; [flushed]: no write to it is pending *)
| ClientResFinished (s : sock)          (* on_finished(client_res) *)
| Settle (s : sock)                     (* callbacks of the settled promise for s *)
| Timeout                               (* the timer of _maybe_destroy fires *)
| ListenerClose                         (* listener 'close' *)
| Data (src : endpoint) (chunk : string). (* 'data' on a piped socket *)

Definition is_settled (a : await) : bool :=
  match a with Settled | Rejected => true | _ => false end.

(** The first promise for socket [s] whose callbacks can run. *)
Definition settled_for (s : sock) (ps : list promise) : option promise :=
  List.find (fun p => bool_decide (p_sock p = s) && is_settled (p_await p)) ps.

Fixpoint remove_promise (s : sock) (ps : list promise) : list promise :=
  match ps with
  | [] => []
  | p :: rest =>
      if bool_decide (p_sock p = s) && is_settled (p_await p) then rest
      else p :: remove_promise s rest
  end.

(** [resolve()] of the promise that socket [s] is awaited in, by [what]. *)
Definition resolve (what : await) (s : sock) (ps : list promise) : list promise :=
  map (fun p =>
         if bool_decide (p_sock p = s) then
           match p_await p, what with
           | AwaitTunnelEnd, AwaitTunnelEnd
           | AwaitClientRes, AwaitClientRes =>
               {| p_sock := s; p_handler := p_handler p; p_await := Settled |}
           | _, _ => p
           end
         else p) ps.

(** Destinations that [src] is piped to. *)
Fixpoint pipes_from (src : endpoint) (t : list action) : list endpoint :=
  match t with
  | [] => []
  | PipeTo a b :: rest =>
      match src, a with
      | Tunnel x, Tunnel y | Peer x, Peer y =>
          if decide (x = y) then b :: pipes_from src rest else pipes_from src rest
      | _, _ => pipes_from src rest
      end
  | _ :: rest => pipes_from src rest
  end.

(** The flag callbacks installed by [maybe_bounce] before it asks for a
    socket: [sock.once('end', ...)], else [on_finished(res, ...)]. *)
Definition on_peer_finished (h : handler) : M World unit :=
  if h_sock h then
    modify (with_finished (fun f => {[h_id h]} ∪ f))
  else if h_res h then
    do _ <- logger "info";
    do _ <- modify (with_finished (fun f => {[h_id h]} ∪ f));
    emit (ConnDestroy (h_id h))
  else ret tt.

Definition enabled (ev : event) (w : World) : bool :=
  match ev with
  | Start _ => true
  | Connection s =>
      match server (self w) with
      | Listening => negb (bool_decide (s ∈ admitted (env w)))
      | _ => false
      end
  | ServerError _ => true
  | NextSocket _ => true
  | PeerFinished _ => true
  | SocketError s => bool_decide (s ∈ admitted (env w))
  | SocketClose s =>
      bool_decide (s ∈ admitted (env w)) && negb (bool_decide (s ∈ closed (env w)))
  | TunnelEnd s _ =>
      (* a destroyed socket emits no 'end' *)
      negb (bool_decide (s ∈ destroyed (env w)))
  | ClientResFinished _ => true
  | Settle s =>
      match settled_for s (pending (env w)) with Some _ => true | None => false end
  | Timeout => conn_timeout (self w)
  | ListenerClose =>
      (* emitted once the listener is closed and every connection is
         destroyed; the 'close' of the last connection itself comes later *)
      match server (self w) with
      | Closing =>
          forallb (fun s => bool_decide (s ∈ destroyed (env w))) (admitted (env w))
      | _ => false
      end
  | Data _ _ => true
  end.

Definition handle (ev : event) : M World unit :=
  match ev with
  | Start os_port => do _ <- start os_port; ret tt
  | Connection s => _handle_socket s
  | ServerError code => on_server_error code
  | NextSocket h => next_socket h
  | PeerFinished h => on_peer_finished h
  | SocketError s => on_socket_error s
  | SocketClose s =>
      (* the runtime sets [destroyed] before it emits 'close' *)
      do _ <- modify (with_destroyed (fun d => {[s]} ∪ d));
      do _ <- modify (with_closed (fun c => {[s]} ∪ c));
      on_socket_close s
  | TunnelEnd s flushed =>
      (* the listener's sockets are not half-open: after 'end' the runtime
         ends the socket and destroys it when its writes are flushed; that
         is before any callback of the resolved promise runs unless a write
         is still pending *)
      do _ <- modify (with_pending (resolve AwaitTunnelEnd s));
      when flushed (modify (with_destroyed (fun d => {[s]} ∪ d)))
  | ClientResFinished s => modify (with_pending (resolve AwaitClientRes s))
  | Settle s =>
      do w <- get;
      match settled_for s (pending (env w)) with
      | Some p =>
          do _ <- modify (with_pending (remove_promise s));
          do _ <- when (match p_await p with Rejected => true | _ => false end)
                    next_socket_catch;
          next_socket_finally s
      | None => ret tt
      end
  | Timeout =>
      (* a timer that fired is no longer armed *)
      do _ <- modify (with_conn_timeout false);
      on_timeout
  | ListenerClose =>
      do _ <- modify (with_server Closed);
      _cleanup
  | Data src chunk =>
      do w <- get;
      forEach (fun dst => emit (Write dst chunk)) (pipes_from src (trace (env w)))
  end.

(** Run a callback to its end; an exception that leaves it is reported and
    the state stays as the callback left it. *)
Definition exec (m : M World unit) (w : World) : World :=
  match m w with
  | Ok _ w' => w'
  | Throw e w' => with_trace (fun t => t ++ [Uncaught e]) w'
  end.

Definition step (ev : event) (w : World) : World :=
  if enabled ev w then exec (handle ev) w else w.

Definition run (evs : list event) (w : World) : World :=
  fold_left (fun w ev => step ev w) evs w.

(** Every event of [evs] is enabled at the moment it comes. *)
Fixpoint deliverable (evs : list event) (w : World) : bool :=
  match evs with
  | [] => true
  | ev :: rest => enabled ev w && deliverable rest (step ev w)
  end.

Definition empty_env : Env :=
  {| destroyed := ∅; finished := ∅; pending := []; trace := [];
     admitted := []; closed := ∅ |}.

(** A freshly constructed tunnel. *)
Definition fresh (opt : proxy_opt) : World :=
  {| self := Proxy_new opt; env := empty_env |}.

(** ** Observations on a state *)

(** Arguments with which handler [h] was invoked, in order. *)
Fixpoint invocations (h : nat) (t : list action) : list (option sock) :=
  match t with
  | [] => []
  | Invoke h' arg :: rest =>
      if decide (h' = h) then arg :: invocations h rest else invocations h rest
  | _ :: rest => invocations h rest
  end.

(** All handler invocations, in order. *)
Fixpoint invoked (t : list action) : list (nat * option sock) :=
  match t with
  | [] => []
  | Invoke h arg :: rest => (h, arg) :: invoked rest
  | _ :: rest => invoked rest
  end.

(** Data written to the tunnel socket [s], in order. *)
Fixpoint written (s : sock) (t : list action) : list string :=
  match t with
  | [] => []
  | Write (Tunnel s') d :: rest =>
      if decide (s' = s) then d :: written s rest else written s rest
  | _ :: rest => written s rest
  end.

(** How often the event [ev] was emitted by the tunnel. *)
Fixpoint emitted (ev : string) (t : list action) : nat :=
  match t with
  | [] => 0
  | Emit ev' :: rest =>
      if decide (ev' = ev) then S (emitted ev rest) else emitted ev rest
  | _ :: rest => emitted ev rest
  end.

(** Sockets lent to a handler whose completion callback has not run. *)
Definition in_flight (w : World) : list sock := map p_sock (pending (env w)).

(** ** The server module: registry, dispatcher, management routes *)

(** Module state: [clients], [stats], and the objects shared with the
    tunnels. *)
Record ServerState := {
  clients : gmap string Proxy;
  tunnels : Z;                    (* stats.tunnels *)
  rand_calls : nat;               (* ids drawn from rand_id so far *)
  senv : Env
}.

Definition with_clients (f : gmap string Proxy -> gmap string Proxy)
    (s : ServerState) : ServerState :=
  {| clients := f (clients s); tunnels := tunnels s;
     rand_calls := rand_calls s; senv := senv s |}.
Definition with_tunnels (f : Z -> Z) (s : ServerState) : ServerState :=
  {| clients := clients s; tunnels := f (tunnels s);
     rand_calls := rand_calls s; senv := senv s |}.
Definition with_rand_calls (f : nat -> nat) (s : ServerState) : ServerState :=
  {| clients := clients s; tunnels := tunnels s;
     rand_calls := f (rand_calls s); senv := senv s |}.
Definition with_senv (f : Env -> Env) (s : ServerState) : ServerState :=
  {| clients := clients s; tunnels := tunnels s;
     rand_calls := rand_calls s; senv := f (senv s) |}.

Definition semit (a : action) : M ServerState unit :=
  modify (with_senv (env_trace (fun t => t ++ [a]))).

(** Run a method of the tunnel object stored under [name]. *)
Definition put_client (name : string) (w : World) (s : ServerState) : ServerState :=
  {| clients := <[name := self w]> (clients s); tunnels := tunnels s;
     rand_calls := rand_calls s; senv := env w |}.

Definition with_client {A} (name : string) (client : Proxy) (m : M World A)
    : M ServerState A :=
  fun s => match m {| self := client; env := senv s |} with
           | Ok a w => Ok a (put_client name w s)
           | Throw e w => Throw e (put_client name w s)
           end.

(** JavaScript truthiness of a string-or-undefined. *)
Definition truthy (o : option string) : option string :=
  match o with
  | Some EmptyString => None
  | other => other
  end.

(** String conversion of a string-or-undefined in a concatenation. *)
Definition js_string (o : option string) : string :=
  match o with Some s => s | None => "undefined" end.

Record options := {
  secure : bool;
  o_max_tcp_sockets : option Z
}.

(** The object that [new_client] hands to its callback and the routes
    send as JSON. *)
Record tunnel_info := {
  i_port : nat;
  i_max_conn_count : Z;
  i_id : string;
  i_url : option string
}.

Inductive response :=
| Json (status : nat) (body : tunnel_info)      (* res.json(info) *)
| EndWith (status : nat) (message : string)     (* res.statusCode = ..; res.end(..) *)
| ErrorJson (status : nat) (message : string)   (* next(err), answered by app.use *)
| NextRoute.                                    (* next() *)

(** /^[a-z0-9]{4,63}$/.test(req_id) *)
Definition lower_alnum (c : ascii) : bool :=
  let n := nat_of_ascii c in
  ((97 <=? n) && (n <=? 122) || (48 <=? n) && (n <=? 57))%nat.

Definition valid_req_id (s : string) : bool :=
  ((4 <=? String.length s) && (String.length s <=? 63))%nat
  && forallb lower_alnum (list_ascii_of_string s).

Section Server.

(** [tldjs.getSubdomain] and [./lib/rand_id] are not part of the sources
    at hand: the first is a library function, the second is taken as the
    sequence of ids it returns, call after call. *)
Variable getSubdomain : string -> option string.
Variable rand_id : nat -> string.

Definition next_rand_id : M ServerState string :=
  do n <- gets rand_calls;
  do _ <- modify (with_rand_calls S);
  ret (rand_id n).

(** function maybe_bounce(req, res, sock, head); [p] names the external
    connection [req.connection]. *)
Definition maybe_bounce (p : nat) (req : request) (res sock : bool)
    (head : option string) : M ServerState bool :=
  do _ <- logger "info";
  match truthy (host req) with
  | None =>
      do _ <- logger "error";
      ret false
  | Some hostname =>
      do _ <- logger "info";
      match truthy (getSubdomain hostname) with
      | None =>
          do _ <- logger "error";
          ret false
      | Some subdomain =>
          do s <- get;
          match clients s !! subdomain with
          | None =>
              do _ <- logger "error";
              do _ <- (if res then
                         do _ <- logger "error";
                         do _ <- semit (Respond p 502
                                   ("no active client for '" +:+ subdomain +:+ "'"));
                         semit (ConnDestroy p)
                       else if sock then
                         do _ <- logger "info";
                         semit (Destroy (Peer p))
                       else ret tt);
              ret true
          | Some client =>
              (* let finished = false *)
              do _ <- modify (with_senv (env_finished (fun f => f ∖ {[p]})));
              if sock || res then
                do _ <- when sock (logger "info");
                do _ <- with_client subdomain client
                          (next_socket {| h_id := p; h_req := req;
                                          h_res := res; h_sock := sock |});
                ret true
              else
                do _ <- logger "info";
                do _ <- semit (ConnDestroy p);
                ret true
          end
      end
  end.

(** server.on('upgrade', function(req, socket, head) ...) *)
Definition on_upgrade (p : nat) (req : request) (head : option string)
    : M ServerState unit :=
  do bounced <- maybe_bounce p req false true head;
  if bounced then
    logger "info"
  else
    do _ <- logger "info";
    semit (Destroy (Peer p)).

(** server.on('request', ...); [false] means the request went on to the
    management app. *)
Definition on_request (p : nat) (req : request) : M ServerState bool :=
  do _ <- logger "info";
  do bounced <- maybe_bounce p req true false None;
  if bounced then
    do _ <- logger "info";
    ret true
  else ret false.

(** function new_client(id, opt, cb); the value is what [cb] receives. *)
Definition new_client (id : string) (opt : options) (os_port : nat)
    : M ServerState (exn + tunnel_info) :=
  do _ <- logger "info";
  do s <- get;
  do id <- (if bool_decide (is_Some (clients s !! id)) then next_rand_id
            else ret id);
  let popt := {| opt_id := id; opt_max_tcp_sockets := o_max_tcp_sockets opt |} in
  (* Proxy(popt) without [new], then the constructor *)
  do _ <- logger "info";
  do _ <- logger "info";
  let client := Proxy_new popt in
  do _ <- modify (with_clients (fun c => <[id := client]> c));
  do r <- with_client id client (start os_port);
  match r with
  | inl err =>
      do _ <- logger "error";
      do _ <- logger "error";
      do _ <- modify (with_clients (fun c => delete id c));
      ret (inl err)
  | inr info =>
      do _ <- modify (with_tunnels Z.succ);
      do _ <- logger "info";
      ret (inr {| i_port := port info;
                  i_max_conn_count := max_conn_count info;
                  i_id := id;
                  i_url := None |})
  end.

(** The listener that [new_client] puts on the tunnel's 'end'. *)
Definition on_client_end (id : string) : M ServerState unit :=
  do _ <- logger "info";
  do _ <- modify (with_tunnels Z.pred);
  modify (with_clients (fun c => delete id c)).

Definition schema (opt : options) : string :=
  if secure opt then "https" else "http".

Definition message (e : exn) : string :=
  match e with TypeError m => m | Error m => m end.

Definition set_url (u : string) (info : tunnel_info) : tunnel_info :=
  {| i_port := i_port info; i_max_conn_count := i_max_conn_count info;
     i_id := i_id info; i_url := Some u |}.

(** app.get('/', ...), first handler; [query_new] is
    [req.query['new'] !== undefined]. *)
Definition get_root (query_new : bool) (req_host : option string)
    (opt : options) (os_port : nat) : M ServerState response :=
  if negb query_new then ret NextRoute
  else
    do req_id <- next_rand_id;
    do r <- new_client req_id opt os_port;
    do _ <- logger "info";
    match r with
    | inl err =>
        do _ <- logger "error";
        do _ <- logger "error";
        ret (EndWith 500 (message err))
    | inr info =>
        let url := schema opt +:+ "://" +:+ req_id +:+ "." +:+ js_string req_host in
        do _ <- logger "info";
        ret (Json 200 (set_url url info))
    end.

(** app.get('/:req_id', ...) *)
Definition get_req_id (req_id : string) (req_host : option string)
    (opt : options) (os_port : nat) : M ServerState response :=
  if negb (valid_req_id req_id) then
    do _ <- logger "error";
    ret (ErrorJson 403
      "Invalid subdomain. Subdomains must be lowercase and between 4 and 63 alphanumeric characters.")
  else
    do r <- new_client req_id opt os_port;
    match r with
    | inl err =>
        do _ <- logger "error";
        ret (ErrorJson 500 (message err))
    | inr info =>
        let url := schema opt +:+ "://" +:+ req_id +:+ "." +:+ js_string req_host in
        do _ <- logger "info";
        ret (Json 200 (set_url url info))
    end.

End Server.

Definition empty_server : ServerState :=
  {| clients := ∅; tunnels := 0; rand_calls := 0; senv := empty_env |}.

(** ** Quantities of the specification and sample inputs *)

(** What [logger.ingo(...)] raises. *)
Definition ingo_error : exn := TypeError "logger.ingo is not a function".

(** [size] of the specification: sockets admitted and not yet closed. *)
Definition size (w : World) : nat :=
  length (List.filter (fun s => negb (bool_decide (s ∈ closed (env w))))
                      (admitted (env w))).


(** Sockets the pool holds, idle or lent. *)
Definition tracked (w : World) : list sock := sockets (self w) ++ in_flight w.

Definition default_opt : proxy_opt :=
  {| opt_id := "abcd"; opt_max_tcp_sockets := None |}.

Definition cap_one_opt : proxy_opt :=
  {| opt_id := "abcd"; opt_max_tcp_sockets := Some 1%Z |}.

Definition sample_request : request :=
  {| method := "GET";
     url := "/chat";
     httpVersion := "1.1";
     rawHeaders := ["Host"; "abcd.example.com"; "Upgrade"; "websocket"];
     host := Some "abcd.example.com" |}.

(** The closure built for an ordinary request on connection [n]. *)
Definition http_handler (n : nat) : handler :=
  {| h_id := n; h_req := sample_request; h_res := true; h_sock := false |}.

(** The closure built for an upgrade request on connection [n]. *)
Definition upgrade_handler (n : nat) : handler :=
  {| h_id := n; h_req := sample_request; h_res := false; h_sock := true |}.

(** The part of a state that the accounting of sockets looks at. *)
Definition core (w : World) :
    list sock * list sock * list sock * gset sock * gset sock :=
  (sockets (self w), in_flight w, admitted (env w),
   destroyed (env w), closed (env w)).

(** A computation that leaves the observation [obs] of the state alone,
    however it ends. *)
Definition keeps {X A} (obs : World -> X) (m : M World A) : Prop :=
  forall w, obs (final (m w)) = obs w.

(** The waiter queue and the handler calls made so far. *)
Definition waiters (w : World) : list handler := waiting (self w).
Definition calls (w : World) : list (nat * option sock) := invoked (trace (env w)).

(** The accounting that holds in every reachable state, over the idle
    list, the lent sockets, the admitted ones and the two sets of flags:
    the pool holds a socket at most once, holds only admitted sockets and
    holds every admitted socket that is not destroyed; a socket whose
    'close' was emitted is admitted, destroyed and not idle. *)
Definition accounting (idle lent adm : list sock) (destr clos : gset sock) : Prop :=
  NoDup (idle ++ lent) /\
  (forall s, s ∈ idle ++ lent -> s ∈ adm) /\
  NoDup adm /\
  (forall s, s ∈ adm -> s ∉ destr -> s ∈ idle ++ lent) /\
  (forall s, s ∈ clos -> s ∈ adm /\ s ∈ destr /\ s ∉ idle).

Definition pool_inv (w : World) : Prop :=
  accounting (sockets (self w)) (in_flight w) (admitted (env w))
             (destroyed (env w)) (closed (env w)).

(** A tunnel with one request waiting and no socket. *)
Definition one_waiting : World :=
  run [Start 4000; NextSocket (http_handler 0)] (fresh default_opt).


(** The events up to an upgrade being served on socket 7. *)
Definition bridge_events : list event :=
  [Start 4000; Connection 7; NextSocket (upgrade_handler 0)].

(** An upgrade served on socket 7 whose tunnel side then signalled 'end'
    while a write to the socket was still pending. *)
Definition bridge_done : World :=
  run (bridge_events ++ [TunnelEnd 7 false; Settle 7]) (fresh default_opt).

(** A tunnel with cap 1 that lent its socket and was dialled again. *)
Definition over_cap : World :=
  run [Start 4000; Connection 7; NextSocket (http_handler 0); Connection 8]
      (fresh cap_one_opt).

(** Sockets 7 and 8 are admitted and socket 7 serves a request.  Socket 8
    closes, which leaves the idle list empty and arms the idle timer; the
    timer closes the listener, whose 'close' has to wait for socket 7.
    Another request comes in and is queued.  Then socket 7 fails: the
    runtime destroys it and the listener, left without connections, emits
    'close' before the 'close' of the socket itself is emitted. *)
Definition listener_closed_events : list event :=
  [Start 4000; Connection 7; Connection 8; NextSocket (http_handler 0);
   SocketClose 8; Timeout; NextSocket (http_handler 3);
   SocketError 7; ListenerClose].

Definition cleaned_once : World := run listener_closed_events (fresh default_opt).

(** ... then the 'close' of socket 7 is emitted: the idle list is empty, so
    its listener arms the idle timer again.  The response of the waiting
    request, ended by the cleanup, finishes.  The timer fires and calls
    [close()] on the closed listener, which emits 'close' once more. *)
Definition cleaned_twice : World :=
  run [SocketClose 7; PeerFinished (http_handler 3); Timeout; ListenerClose]
      cleaned_once.

(** Two requests waiting, the peer of the first one gone, then a socket. *)
Definition peer_gone_then_admit : World :=
  run [Start 4000; NextSocket (http_handler 0); PeerFinished (http_handler 0);
       NextSocket (http_handler 1); Connection 7]
      (fresh default_opt).

Definition sample_options : options :=
  {| secure := false; o_max_tcp_sockets := None |}.

Definition rand_wxyz (n : nat) : string := "wxyz".

Definition rand_abcd_then_wxyz (n : nat) : string :=
  match n with 0 => "abcd" | _ => "wxyz" end.

(** A registry in which the id abcd is in use. *)
Definition abcd_taken : ServerState :=
  final (new_client rand_wxyz "abcd" sample_options 4000 empty_server).

(** The value a computation returned. *)
Definition answer {S A} (r : Res S A) : option A :=
  match r with Ok a _ => Some a | Throw _ _ => None end.

(** What the spec calls the leftmost dot-separated label, fixed for the
    sample host. *)
Definition sample_getSubdomain (hostname : string) : option string :=
  if String.eqb hostname "abcd.example.com" then Some "abcd" else None.

(** A server whose tunnel abcd holds the idle socket 7. *)
Definition abcd_with_socket : ServerState :=
  {| clients := <["abcd" := self (run [Start 4000; Connection 7] (fresh default_opt))]> ∅;
     tunnels := 1;
     rand_calls := 0;
     senv := env (run [Start 4000; Connection 7] (fresh default_opt)) |}.

(** Two requests waiting, then one socket admitted. *)
Definition waiter_beside_socket : World :=
  run [Start 4000; NextSocket (http_handler 0); NextSocket (http_handler 1);
       Connection 7]
      (fresh default_opt).

(** ** Observations for the further properties *)

(** How often the tunnel emitted 'end'. *)
Definition ends (w : World) : nat := emitted "end" (trace (env w)).

(** The listener was closed: it is closing or closed. *)
Definition shut (l : listener) : bool :=
  match l with Closing | Closed => true | _ => false end.

(** Data written to either end of a connection, in order. *)
Fixpoint written_to (e : endpoint) (t : list action) : list string :=
  match t with
  | [] => []
  | Write dst d :: rest =>
      match e, dst with
      | Tunnel x, Tunnel y | Peer x, Peer y =>
          if decide (x = y) then d :: written_to e rest else written_to e rest
      | _, _ => written_to e rest
      end
  | _ :: rest => written_to e rest
  end.

(** [req.rawHeaders] of a request with the header pairs [kvs]: names and
    values alternate. *)
Definition raw_of (kvs : list (string * string)) : list string :=
  flat_map (fun kv => [fst kv; snd kv]) kvs.

(** A tunnel that was started and nothing else. *)
Definition just_started : World := run [Start 4000] (fresh default_opt).

(** A started tunnel with the idle sockets 7 and 8. *)
Definition two_idle : World :=
  run [Start 4000; Connection 7; Connection 8] (fresh default_opt).

(** A tunnel with cap 1 whose only slot is taken by the idle socket 7. *)
Definition full_house : World :=
  run [Start 4000; Connection 7] (fresh cap_one_opt).

(** What the handler of a request does, read off its branches: [fin] is
    its variable [finished], [arg] the socket or null it is called with. *)
Definition handler_effects (fin : bool) (h : handler) (arg : option sock)
    : list action :=
  if fin then []
  else match arg with
       | None =>
           (if h_res h then [Respond (h_id h) 504 EmptyString] else []) ++
           (if h_sock h then [Destroy (Peer (h_id h))] else []) ++
           [ConnDestroy (h_id h)]
       | Some s =>
           if h_res h then [HttpRequest (h_id h) s]
           else if h_sock h then
             [PipeTo (Tunnel s) (Peer (h_id h));
              PipeTo (Peer (h_id h)) (Tunnel s);
              Write (Tunnel s) (preamble (h_req h))]
           else []
       end.

(** A call of handler [h] with [arg] in state [w], as it shows in the trace. *)
Definition call_effects (w : World) (h : handler) (arg : option sock)
    : list action :=
  Invoke (h_id h) arg
    :: handler_effects (bool_decide (h_id h ∈ finished (env w))) h arg.

(** Traffic on a bridged connection between peer [p] and tunnel socket
    [s]: a chunk comes from the peer ([true]) or from the tunnel; it arrives
    as a 'data' event and is to be written to the other side. *)
Definition chunk_event (p : nat) (s : sock) (d : bool * string) : event :=
  Data (if fst d then Peer p else Tunnel s) (snd d).

Definition chunk_write (p : nat) (s : sock) (d : bool * string) : action :=
  Write (if fst d then Tunnel s else Peer p) (snd d).

(** The life cycle of a tunnel as far as its listener goes. *)
Definition life (w : World) : listener * bool * bool * list sock * nat :=
  (server (self w), started (self w), conn_timeout (self w),
   admitted (env w), ends w).

(** What holds of the life cycle in every reachable state: before the
    listener is bound no timer is armed, no socket admitted and 'end' not
    emitted; a bound listener belongs to a started tunnel; 'end' was only
    emitted if the listener was closed. *)
Definition life_ok (x : listener * bool * bool * list sock * nat) : Prop :=
  let '(l, st, timer, adm, n) := x in
  (l = Unbound -> timer = false /\ adm = [] /\ n = 0) /\
  (l <> Unbound -> st = true) /\
  (0 < n -> shut l = true).

Definition life_inv (w : World) : Prop := life_ok (life w).

(** The moves of the life cycle that one callback can make: none; a first
    [start]; the admission of a socket; the 'close' of an admitted socket,
    which may arm the timer; the timer closing the listener, also one that
    was closed before; the timer firing before the listener is bound; the
    listener's 'close'. *)
Inductive life_move :
    listener * bool * bool * list sock * nat ->
    listener * bool * bool * list sock * nat -> Prop :=
| move_none x : life_move x x
| move_start l timer adm n :
    life_move (l, false, timer, adm, n) (Listening, true, true, adm, n)
| move_admit st timer adm n s :
    life_move (Listening, st, timer, adm, n) (Listening, st, false, adm ++ [s], n)
| move_socket_close l st timer timer' adm n :
    adm <> [] ->
    life_move (l, st, timer, adm, n) (l, st, timer', adm, n)
| move_timer_close l st adm n :
    l <> Unbound ->
    life_move (l, st, true, adm, n) (Closing, st, false, adm, n)
| move_timer_unbound st adm n :
    life_move (Unbound, st, true, adm, n) (Unbound, st, false, adm, n)
| move_listener_close st timer adm n :
    life_move (Closing, st, timer, adm, n) (Closed, st, false, adm, S n).

(** The events of [cleaned_once] and then the idle timer, armed by the
    'close' of socket 7, firing on the closed listener. *)
Definition timer_on_closed_listener : list event :=
  listener_closed_events ++ [SocketClose 7; Timeout].

(** ** Notions for the properties of the server module *)

(** The request line of the preamble. *)
Definition request_line (req : request) : string :=
  method req +:+ " " +:+ url req +:+ " HTTP/" +:+ httpVersion req.

(** A header pair as one line. *)
Definition header_line (kv : string * string) : string :=
  fst kv +:+ ": " +:+ snd kv.

(** Lines of text, each followed by CR LF. *)
Definition crlf_lines (ls : list string) : string :=
  fold_right (fun l acc => l +:+ CRLF +:+ acc) EmptyString ls.

(** The characters of the class [a-z0-9]. *)
Definition lower_alnum_chars : list ascii :=
  list_ascii_of_string "abcdefghijklmnopqrstuvwxyz0123456789".

(** The subdomain a request is for, if its Host header names one. *)
Definition routed (getSubdomain : string -> option string) (req : request)
    : option string :=
  match truthy (host req) with
  | Some hostname => truthy (getSubdomain hostname)
  | None => None
  end.

(** The tunnel object that the registry is to hold for [id] once
    [new_client] is through, field by field: no socket and no waiter yet,
    the cap of the server options or 10, started, listening, idle timer
    armed.  (The port is a property of the listener, not a field.) *)
Definition listening_proxy (id : string) (opt : options) (os_port : nat) : Proxy :=
  {| sockets := [];
     waiting := [];
     proxy_id := id;
     max_tcp_sockets := match o_max_tcp_sockets opt with
                        | Some 0%Z | None => 10%Z
                        | Some n => n
                        end;
     server := Listening;
     conn_timeout := true;
     started := true |}.

(** What the promise of a lent socket waits for, and the event that
    resolves it: the 'end' of the tunnel socket for an upgrade, the end of
    the response for an ordinary request. *)
Definition awaited (upgrade : bool) : await :=
  if upgrade then AwaitTunnelEnd else AwaitClientRes.

Definition completion (upgrade : bool) (s : sock) : event :=
  if upgrade then TunnelEnd s false else ClientResFinished s.

(** Socket 7 is serving the request of connection 0, nobody waits. *)
Definition serving : World :=
  run [Start 4000; Connection 7; NextSocket (http_handler 0)] (fresh default_opt).

(** A started tunnel whose only socket, 7, is idle. *)
Definition one_idle : World :=
  run [Start 4000; Connection 7] (fresh default_opt).

(** Options with a negative cap. *)
Definition negative_cap_opt : proxy_opt :=
  {| opt_id := "abcd"; opt_max_tcp_sockets := Some (-1)%Z |}.

(** The handlers that were called with socket [s], in the order of the
    calls. *)
Fixpoint lent_to (s : sock) (cs : list (nat * option sock)) : list nat :=
  match cs with
  | [] => []
  | (h, Some s') :: rest =>
      if decide (s' = s) then h :: lent_to s rest else lent_to s rest
  | (_, None) :: rest => lent_to s rest
  end.

(** Socket 7 served the request of connection 0 and closed meanwhile. *)
Definition served_then_closed : list event :=
  [Start 4000; Connection 7; NextSocket (http_handler 0); SocketClose 7].

(** * Properties *)

#[local] Set Warnings "-clear-no-such-hyp".

Lemma logger_info S : @logger S "info" = ret tt.
Proof. reflexivity. Qed.

Lemma logger_error S : @logger S "error" = ret tt.
Proof. reflexivity. Qed.

Lemma logger_ingo S : @logger S "ingo" = throw ingo_error.
Proof. reflexivity. Qed.

(** ** The waiter queue *)

(** C1 (FIFO lending: the k-th admitted socket goes to the k-th enqueued
    waiter).  Evaluation of the code on the smallest inputs of the claim:
    one waiter and one admitted socket, then two and two.  The admit pops
    the head waiter and stops with a TypeError; no waiter is ever invoked
    and the admitted sockets stay idle. *)
Theorem admit_wakes_no_waiter :
  let w1 := run [Start 4000; NextSocket (http_handler 0); Connection 7]
                (fresh default_opt) in
  let w2 := run [Start 4000; NextSocket (http_handler 0);
                 NextSocket (http_handler 1); Connection 7; Connection 8]
                (fresh default_opt) in
  (invoked (trace (env w1)) = [] /\
   waiting (self w1) = [] /\
   sockets (self w1) = [7] /\
   trace (env w1) = [Uncaught ingo_error]) /\
  (invoked (trace (env w2)) = [] /\
   waiting (self w2) = [] /\
   sockets (self w2) = [7; 8] /\
   trace (env w2) = [Uncaught ingo_error; Uncaught ingo_error]).
Proof. vm_compute. repeat split; reflexivity. Qed.

(** C2 (the dequeue path raises before it reaches [next_socket]).  With a
    non-empty waiter queue [h :: rest], [_process_waiting] removes [h] and
    stops with the TypeError of [logger.ingo], nothing else changed; so does
    an admit below the cap, after it queued the socket as idle, and so does
    the completion callback of a lent socket when an idle socket is there
    once the lent one is (or is not) put back.  In each case the trace, and
    with it the invocations of [h], is the one before the call. *)
Theorem dequeue_raises_before_next_socket
    (w : World) (h : handler) (rest : list handler) (s : sock)
    (Hw : waiting (self w) = h :: rest) :
  _process_waiting w = Throw ingo_error (with_waiting (fun _ => rest) w) /\
  ((Z.of_nat (length (sockets (self w))) < max_tcp_sockets (self w))%Z ->
   _handle_socket s w =
     Throw ingo_error
       (with_waiting (fun _ => rest)
          (with_sockets (fun l => l ++ [s])
             (with_admitted (fun l => l ++ [s])
                (with_conn_timeout false w))))) /\
  (s ∉ destroyed (env w) ->
   next_socket_finally s w =
     Throw ingo_error
       (with_waiting (fun _ => rest) (with_sockets (fun l => l ++ [s]) w))) /\
  (s ∈ destroyed (env w) -> sockets (self w) <> [] ->
   next_socket_finally s w =
     Throw ingo_error (with_waiting (fun _ => rest) w)).
Proof.
  assert (Hpw : forall w', waiting (self w') = h :: rest ->
            _process_waiting w' = Throw ingo_error (with_waiting (fun _ => rest) w')).
  { intros w' Hw'. unfold _process_waiting, shift_waiting, bind, get.
    rewrite Hw'. reflexivity. }
  split; [now apply Hpw|].
  split; [|split].
  - intros Hcap. unfold _handle_socket, bind, get.
    destruct (Z.leb_spec (max_tcp_sockets (self w))
                (Z.of_nat (length (sockets (self w))))) as [Hle|_];
      [lia|].
    cbn -[_process_waiting]. rewrite Hpw by (cbn; exact Hw). reflexivity.
  - intros Hd. unfold next_socket_finally, bind, get.
    rewrite bool_decide_false by exact Hd. cbn -[_process_waiting].
    rewrite length_app. cbn -[_process_waiting].
    replace (length (sockets (self w)) + 1 =? 0)%nat with false
      by (symmetry; apply Nat.eqb_neq; lia).
    rewrite Hpw by (cbn; exact Hw). reflexivity.
  - intros Hd Hne. unfold next_socket_finally, bind, get.
    rewrite bool_decide_true by exact Hd. cbn -[_process_waiting].
    destruct (sockets (self w)) eqn:Hs; [congruence|]. cbn -[_process_waiting].
    rewrite Hpw by exact Hw. reflexivity.
Qed.

Lemma dequeue_raises_witness :
  _process_waiting one_waiting =
    Throw ingo_error (with_waiting (fun _ => []) one_waiting) /\
  _handle_socket 7 one_waiting =
    Throw ingo_error
      (with_waiting (fun _ => [])
         (with_sockets (fun l => l ++ [7])
            (with_admitted (fun l => l ++ [7])
               (with_conn_timeout false one_waiting)))) /\
  next_socket_finally 7 one_waiting =
    Throw ingo_error
      (with_waiting (fun _ => [])
         (with_sockets (fun l => l ++ [7]) one_waiting)).
Proof.
  destruct (dequeue_raises_before_next_socket one_waiting (http_handler 0) [] 7
              eq_refl) as [H1 [H2 [H3 _]]].
  split; [exact H1|]. split.
  - apply H2. reflexivity.
  - apply H3. vm_compute. set_solver.
Defined.

(** ** Accounting of sockets *)

Lemma invoked_app (t1 t2 : list action) :
  invoked (t1 ++ t2) = invoked t1 ++ invoked t2.
Proof.
  induction t1 as [|a t1 IH]; [reflexivity|].
  destruct a; cbn; rewrite ?IH; reflexivity.
Qed.

Section Keeps.

Context {X : Type} (obs : World -> X).

Lemma keeps_ret {A} (a : A) : keeps obs (ret a).
Proof. intros w. reflexivity. Qed.

Lemma keeps_throw {A} (e : exn) : keeps obs (@throw World A e).
Proof. intros w. reflexivity. Qed.

Lemma keeps_bind {A B} (m : M World A) (k : A -> M World B) :
  keeps obs m -> (forall a, keeps obs (k a)) -> keeps obs (bind m k).
Proof.
  intros Hm Hk w. unfold bind. specialize (Hm w).
  destruct (m w) as [a w'|e w']; cbn in *.
  - rewrite Hk. exact Hm.
  - exact Hm.
Qed.

Lemma keeps_try_catch {A} (m : M World A) (h : exn -> M World A) :
  keeps obs m -> (forall e, keeps obs (h e)) -> keeps obs (try_catch m h).
Proof.
  intros Hm Hh w. unfold try_catch. specialize (Hm w).
  destruct (m w) as [a w'|e w']; cbn in *.
  - exact Hm.
  - rewrite Hh. exact Hm.
Qed.

Lemma keeps_get : keeps obs get.
Proof. intros w. reflexivity. Qed.

Lemma keeps_gets {A} (f : World -> A) : keeps obs (gets f).
Proof. intros w. reflexivity. Qed.

Lemma keeps_modify (f : World -> World) :
  (forall w, obs (f w) = obs w) -> keeps obs (modify f).
Proof. intros Hf w. apply Hf. Qed.

Lemma keeps_when (b : bool) (m : M World unit) :
  keeps obs m -> keeps obs (when b m).
Proof. intros Hm. destruct b; [exact Hm | apply keeps_ret]. Qed.

Lemma keeps_forEach {A} (f : A -> M World unit) (xs : list A) :
  (forall x, keeps obs (f x)) -> keeps obs (forEach f xs).
Proof.
  intros Hf. induction xs as [|x xs IH]; cbn.
  - apply keeps_ret.
  - apply keeps_bind; [apply Hf | intros _; exact IH].
Qed.

Lemma keeps_logger (method : string) : keeps obs (logger method).
Proof.
  unfold logger. destruct (existsb _ _); [apply keeps_ret | apply keeps_throw].
Qed.

End Keeps.

Create HintDb keeps.
#[local] Hint Resolve keeps_ret keeps_throw keeps_get keeps_gets keeps_logger
  : keeps.

(** One step through a computation; an update of the state is checked by
    computation, for the handler calls with [invoked_app]. *)
Ltac keeps_step :=
  first
    [ solve [auto with keeps]
    | apply keeps_bind; [|intros ?]
    | apply keeps_try_catch; [|intros ?]
    | apply keeps_when
    | apply keeps_forEach; intros ?
    | apply keeps_modify; intros ?;
      solve [ reflexivity
            | unfold calls; cbn; rewrite invoked_app; cbn; apply app_nil_r ] ].

Ltac keeps_auto := repeat keeps_step.

Ltac keeps_bounce :=
  unfold bounce_handler; keeps_auto;
  match goal with b : bool |- _ => destruct b end; keeps_auto;
  match goal with |- keeps _ (match ?arg with _ => _ end) => destruct arg end;
  keeps_auto;
  match goal with
  | |- context [h_res ?h] => destruct (h_res h), (h_sock h)
  end; cbn [negb]; keeps_auto.

(** The handler reads the state and adds effects to the trace, none of
    them a handler call. *)
Lemma keeps_core_bounce_handler (h : handler) (arg : option sock) :
  keeps core (bounce_handler h arg).
Proof. keeps_bounce. Qed.

Lemma keeps_waiters_bounce_handler (h : handler) (arg : option sock) :
  keeps waiters (bounce_handler h arg).
Proof. keeps_bounce. Qed.

Lemma keeps_calls_bounce_handler (h : handler) (arg : option sock) :
  keeps calls (bounce_handler h arg).
Proof. keeps_bounce. Qed.
#[local] Hint Resolve keeps_core_bounce_handler keeps_waiters_bounce_handler
  keeps_calls_bounce_handler : keeps.

Lemma keeps_core_invoke (h : handler) (arg : option sock) :
  keeps core (invoke h arg).
Proof. unfold invoke, emit. keeps_auto. Qed.

Lemma keeps_waiters_invoke (h : handler) (arg : option sock) :
  keeps waiters (invoke h arg).
Proof. unfold invoke, emit. keeps_auto. Qed.
#[local] Hint Resolve keeps_core_invoke keeps_waiters_invoke : keeps.

Lemma keeps_core_cleanup : keeps core _cleanup.
Proof. unfold _cleanup, clearTimeout, emit. keeps_auto. Qed.

Lemma keeps_waiters_cleanup : keeps waiters _cleanup.
Proof. unfold _cleanup, clearTimeout, emit. keeps_auto. Qed.
#[local] Hint Resolve keeps_core_cleanup keeps_waiters_cleanup : keeps.

Lemma keeps_maybe_destroy : keeps core _maybe_destroy.
Proof. unfold _maybe_destroy, clearTimeout, setTimeout. keeps_auto. Qed.
#[local] Hint Resolve keeps_maybe_destroy : keeps.

(** The timer callback never throws, so its catch branch, the only call of
    [_cleanup] outside the listener's 'close', never runs: all it does is
    ask the listener to close. *)
Lemma on_timeout_eq (w : World) :
  on_timeout w =
    Ok tt (match server (self w) with
           | Unbound => with_conn_timeout false w
           | _ => with_server Closing (with_conn_timeout false w)
           end).
Proof.
  unfold on_timeout, try_catch, server_close, clearTimeout, bind, get, modify.
  cbn. destruct (server (self w)) eqn:Hsv; cbn; rewrite ?Hsv; reflexivity.
Qed.

Lemma keeps_on_timeout : keeps core on_timeout.
Proof.
  unfold on_timeout, clearTimeout, server_close. keeps_auto.
  match goal with w : World |- _ => destruct (server (self w)) end; keeps_auto.
Qed.
#[local] Hint Resolve keeps_on_timeout : keeps.

Lemma keeps_start (os_port : nat) : keeps core (start os_port).
Proof.
  unfold start. keeps_auto.
  match goal with w : World |- _ => destruct (started (self w)) end; keeps_auto.
Qed.
#[local] Hint Resolve keeps_start : keeps.

(** [_process_waiting] never gets as far as [next_socket]. *)
Lemma process_waiting_eq (w : World) :
  _process_waiting w =
    match waiting (self w) with
    | [] => Ok tt w
    | _ :: rest => Throw ingo_error (with_waiting (fun _ => rest) w)
    end.
Proof.
  unfold _process_waiting, shift_waiting, bind, get.
  destruct (waiting (self w)); reflexivity.
Qed.

Lemma keeps_process_waiting : keeps core _process_waiting.
Proof.
  intros w. rewrite process_waiting_eq. destruct (waiting (self w)); reflexivity.
Qed.

Lemma invoke_ok (h : handler) (arg : option sock) (w : World) :
  exists a w', invoke h arg w = Ok a w'.
Proof.
  unfold invoke, bind, emit, modify, try_catch.
  destruct (bounce_handler h arg _); eauto.
Qed.

Lemma next_socket_core (h : handler) (w : World) :
  core (final (next_socket h w)) =
    match sockets (self w) with
    | [] => core w
    | s :: rest =>
        (rest, in_flight w ++ [s], admitted (env w),
         destroyed (env w), closed (env w))
    end.
Proof.
  unfold next_socket, shift_sockets, bind, get.
  destruct (sockets (self w)) as [|s rest] eqn:Hs; cbn -[invoke].
  - unfold core. cbn. rewrite Hs. reflexivity.
  - destruct (invoke_ok h (Some s) (with_sockets (fun _ => rest) w))
      as (a & w' & Hinv).
    pose proof (keeps_core_invoke h (Some s) (with_sockets (fun _ => rest) w)) as Hk.
    rewrite Hinv in *. cbn in Hk. cbn.
    unfold core, in_flight in *. cbn in *. rewrite map_app. cbn.
    injection Hk as -> -> -> -> ->. reflexivity.
Qed.

Lemma next_socket_finally_core (s : sock) (w : World) :
  core (final (next_socket_finally s w)) =
    (sockets (self w) ++ (if bool_decide (s ∈ destroyed (env w)) then [] else [s]),
     in_flight w, admitted (env w), destroyed (env w), closed (env w)).
Proof.
  unfold next_socket_finally, bind, get.
  destruct (bool_decide (s ∈ destroyed (env w))); cbn -[_process_waiting].
  - rewrite app_nil_r.
    destruct (length (sockets (self w)) =? 0)%nat; [reflexivity|].
    apply keeps_process_waiting.
  - destruct (length (sockets (self w) ++ [s]) =? 0)%nat; [reflexivity|].
    rewrite keeps_process_waiting. reflexivity.
Qed.

Lemma on_socket_close_core (s : sock) (w : World) :
  core (final (on_socket_close s w)) =
    (remove_first s (sockets (self w)), in_flight w, admitted (env w),
     destroyed (env w), closed (env w)).
Proof.
  unfold on_socket_close, bind, get. cbn -[_maybe_destroy].
  destruct (length (remove_first s (sockets (self w))) =? 0)%nat;
    cbn -[_maybe_destroy]; [|reflexivity].
  rewrite keeps_maybe_destroy. reflexivity.
Qed.

Lemma handle_socket_core (s : sock) (w : World) :
  core (final (_handle_socket s w)) =
    if (max_tcp_sockets (self w) <=? Z.of_nat (length (sockets (self w))))%Z
    then core w
    else (sockets (self w) ++ [s], in_flight w, admitted (env w) ++ [s],
          destroyed (env w), closed (env w)).
Proof.
  unfold _handle_socket, bind, get.
  destruct (max_tcp_sockets (self w) <=? Z.of_nat (length (sockets (self w))))%Z;
    cbn -[_process_waiting]; [reflexivity|].
  rewrite keeps_process_waiting. reflexivity.
Qed.

Lemma exec_core (m : M World unit) (w : World) :
  core (exec m w) = core (final (m w)).
Proof. unfold exec. destruct (m w); reflexivity. Qed.

Lemma resolve_socks (what : await) (s : sock) (ps : list promise) :
  map p_sock (resolve what s ps) = map p_sock ps.
Proof.
  unfold resolve. rewrite map_map. apply map_ext. intros p.
  destruct (bool_decide_reflect (p_sock p = s)) as [Heq|]; [|reflexivity].
  destruct (p_await p), what; cbn; congruence.
Qed.

(** Running the callbacks of a promise takes one entry for its socket out
    of the lent ones. *)
Lemma remove_promise_socks (s : sock) (ps : list promise) (p : promise) :
  settled_for s ps = Some p ->
  exists l1 l2, map p_sock ps = l1 ++ s :: l2 /\
                map p_sock (remove_promise s ps) = l1 ++ l2.
Proof.
  unfold settled_for. induction ps as [|q ps IH]; cbn; [discriminate|].
  destruct (bool_decide (p_sock q = s) && is_settled (p_await q)) eqn:Hq.
  - intros _. exists [], (map p_sock ps). cbn.
    apply andb_true_iff in Hq as [Hq _]. apply bool_decide_eq_true in Hq.
    rewrite Hq. split; reflexivity.
  - intros Hf. destruct (IH Hf) as (l1 & l2 & H1 & H2).
    exists (p_sock q :: l1), l2. cbn. rewrite H1, H2. split; reflexivity.
Qed.

Lemma accounting_init : accounting [] [] [] ∅ ∅.
Proof.
  unfold accounting. cbn. repeat split; try constructor; set_solver.
Qed.

Lemma accounting_lend (idle lent adm : list sock) (destr clos : gset sock) (s : sock) :
  accounting (s :: idle) lent adm destr clos ->
  accounting idle (lent ++ [s]) adm destr clos.
Proof.
  unfold accounting. intros (Hnd & Htr & Hadm & Hlive & Hcl).
  assert (Hperm : idle ++ lent ++ [s] ≡ₚ (s :: idle) ++ lent).
  { cbn. rewrite app_assoc. symmetry. apply Permutation_cons_append. }
  repeat split.
  - rewrite Hperm. exact Hnd.
  - intros x Hx. apply Htr. rewrite <- Hperm. exact Hx.
  - exact Hadm.
  - intros x Hx Hd. rewrite Hperm. auto.
  - apply Hcl; assumption.
  - apply Hcl; assumption.
  - intros Hin. destruct (Hcl _ H) as (_ & _ & Hni). apply Hni. set_solver.
Qed.

Lemma accounting_return (idle lent adm : list sock) (destr clos : gset sock) (s : sock) (l1 l2 : list sock) :
  lent = l1 ++ s :: l2 ->
  accounting idle lent adm destr clos ->
  accounting
    (idle ++ (if bool_decide (s ∈ destr) then [] else [s]))
    (l1 ++ l2) adm destr clos.
Proof.
  unfold accounting. intros -> (Hnd & Htr & Hadm & Hlive & Hcl).
  assert (Hperm : idle ++ l1 ++ s :: l2 ≡ₚ s :: idle ++ l1 ++ l2).
  { rewrite !app_assoc. symmetry. apply Permutation_middle. }
  rewrite Hperm in Hnd. apply NoDup_cons in Hnd as [Hs Hnd].
  destruct (bool_decide_reflect (s ∈ destr)) as [Hd|Hd].
  - rewrite app_nil_r. repeat split; try assumption.
    + intros x Hx. apply Htr. rewrite Hperm. set_solver.
    + intros x Hx Hxd. specialize (Hlive x Hx Hxd). rewrite Hperm in Hlive.
      apply elem_of_cons in Hlive as [->|]; [contradiction|assumption].
    + apply Hcl; assumption.
    + apply Hcl; assumption.
    + apply Hcl; assumption.
  - assert (Hperm' : (idle ++ [s]) ++ l1 ++ l2 ≡ₚ s :: idle ++ l1 ++ l2).
    { rewrite <- app_assoc. cbn. symmetry. apply Permutation_middle. }
    repeat split; try assumption.
    + rewrite Hperm'. apply NoDup_cons. split; assumption.
    + intros x Hx. apply Htr. rewrite Hperm, <- Hperm'. exact Hx.
    + intros x Hx Hxd. rewrite Hperm', <- Hperm. auto.
    + apply Hcl; assumption.
    + apply Hcl; assumption.
    + intros Hin. destruct (Hcl _ H) as (_ & Hsd & Hni).
      apply elem_of_app in Hin as [Hin|Hin]; [contradiction|].
      apply list_elem_of_singleton in Hin. subst. contradiction.
Qed.

Lemma remove_first_subset (s x : sock) (l : list sock) :
  x ∈ remove_first s l -> x ∈ l.
Proof.
  induction l as [|y l IH]; cbn; [trivial|].
  destruct (decide (y = s)); set_solver.
Qed.

Lemma remove_first_other (s x : sock) (l : list sock) :
  x <> s -> x ∈ l -> x ∈ remove_first s l.
Proof.
  intros Hne. induction l as [|y l IH]; cbn; [trivial|].
  destruct (decide (y = s)); set_solver.
Qed.

Lemma remove_first_NoDup (s : sock) (l : list sock) :
  NoDup l -> NoDup (remove_first s l) /\ s ∉ remove_first s l.
Proof.
  induction l as [|y l IH]; cbn; intros Hnd.
  - split; [constructor | set_solver].
  - apply NoDup_cons in Hnd as [Hy Hnd]. destruct (IH Hnd) as [IH1 IH2].
    destruct (decide (y = s)) as [->|Hne]; [split; assumption|].
    split.
    + apply NoDup_cons. split; [|assumption].
      intros Hin. apply Hy. eapply remove_first_subset. exact Hin.
    + set_solver.
Qed.

Lemma accounting_close (idle lent adm : list sock) (destr clos : gset sock) (s : sock) :
  s ∈ adm ->
  accounting idle lent adm destr clos ->
  accounting (remove_first s idle) lent adm ({[s]} ∪ destr) ({[s]} ∪ clos).
Proof.
  unfold accounting. intros Hs (Hnd & Htr & Hadm & Hlive & Hcl).
  apply NoDup_app in Hnd as (Hni & Hdisj & Hnl).
  destruct (remove_first_NoDup s idle Hni) as [Hni' Hs'].
  repeat split.
  - apply NoDup_app. repeat split; try assumption.
    intros x Hx. apply Hdisj. eapply remove_first_subset. exact Hx.
  - intros x Hx. apply Htr. apply elem_of_app in Hx as [Hx|Hx].
    + apply elem_of_app. left. eapply remove_first_subset. exact Hx.
    + apply elem_of_app. right. exact Hx.
  - exact Hadm.
  - intros x Hx Hxd.
    assert (x <> s) by set_solver.
    assert (x ∉ destr) by set_solver.
    specialize (Hlive x Hx ltac:(assumption)).
    apply elem_of_app in Hlive as [Hi|Hl]; apply elem_of_app.
    + left. apply remove_first_other; assumption.
    + right. exact Hl.
  - apply elem_of_union in H as [H|H].
    + apply elem_of_singleton in H. subst. exact Hs.
    + apply Hcl. exact H.
  - apply elem_of_union in H as [H|H]; [set_solver|].
    destruct (Hcl _ H) as (_ & ? & _). set_solver.
  - intros Hin. apply elem_of_union in H as [H|H].
    + apply elem_of_singleton in H. subst. contradiction.
    + destruct (Hcl _ H) as (_ & _ & Hn). apply Hn.
      eapply remove_first_subset. exact Hin.
Qed.

Lemma accounting_error (idle lent adm : list sock) (destr clos : gset sock) (s : sock) :
  accounting idle lent adm destr clos ->
  accounting idle lent adm ({[s]} ∪ destr) clos.
Proof.
  unfold accounting. intros (Hnd & Htr & Hadm & Hlive & Hcl).
  repeat split; try assumption.
  - intros x Hx Hxd. apply Hlive; set_solver.
  - apply Hcl; assumption.
  - destruct (Hcl _ H) as (_ & ? & _). set_solver.
  - apply Hcl; assumption.
Qed.

Lemma accounting_admit (idle lent adm : list sock) (destr clos : gset sock) (s : sock) :
  s ∉ adm ->
  accounting idle lent adm destr clos ->
  accounting (idle ++ [s]) lent (adm ++ [s]) destr clos.
Proof.
  unfold accounting. intros Hs (Hnd & Htr & Hadm & Hlive & Hcl).
  assert (Hperm : (idle ++ [s]) ++ lent ≡ₚ s :: idle ++ lent).
  { rewrite <- app_assoc. cbn. symmetry. apply Permutation_middle. }
  repeat split.
  - rewrite Hperm. apply NoDup_cons. split; [|assumption].
    intros Hin. apply Hs. apply Htr. exact Hin.
  - intros x Hx. rewrite Hperm in Hx.
    apply elem_of_cons in Hx as [->|Hx]; [set_solver|].
    apply elem_of_app. left. apply Htr. exact Hx.
  - apply NoDup_app. repeat split; [assumption| |apply NoDup_singleton].
    intros x Hx Hxs. apply list_elem_of_singleton in Hxs. subst. contradiction.
  - intros x Hx Hxd. rewrite Hperm.
    apply elem_of_app in Hx as [Hx|Hx].
    + apply elem_of_cons. right. apply Hlive; assumption.
    + apply list_elem_of_singleton in Hx. subst. apply elem_of_cons. left. reflexivity.
  - apply elem_of_app. left. apply Hcl. exact H.
  - apply Hcl; assumption.
  - intros Hin. destruct (Hcl _ H) as (Ha & _ & Hn).
    apply elem_of_app in Hin as [Hin|Hin]; [contradiction|].
    apply list_elem_of_singleton in Hin. subst. contradiction.
Qed.

Lemma pool_inv_core (w w' : World) :
  core w' = core w -> pool_inv w -> pool_inv w'.
Proof.
  unfold pool_inv, core. intros Hc. injection Hc as -> -> -> -> ->. trivial.
Qed.

Lemma pool_inv_keeps (m : M World unit) (w : World) :
  keeps core m -> pool_inv w -> pool_inv (exec m w).
Proof.
  intros Hk. apply pool_inv_core. rewrite exec_core. apply Hk.
Qed.

Lemma pool_inv_step (ev : event) (w : World) :
  pool_inv w -> pool_inv (step ev w).
Proof.
  intros Hinv. unfold step. destruct (enabled ev w) eqn:Hen; [|exact Hinv].
  destruct ev; cbn [handle].
  - (* Start *)
    apply pool_inv_keeps; [|exact Hinv]. keeps_auto.
  - (* Connection *)
    cbn in Hen. destruct (server (self w)); try discriminate.
    apply negb_true_iff, bool_decide_eq_false in Hen.
    pose proof (handle_socket_core s w) as Hc. rewrite <- exec_core in Hc.
    destruct (max_tcp_sockets (self w) <=? Z.of_nat (length (sockets (self w))))%Z.
    + eapply pool_inv_core; eassumption.
    + unfold pool_inv, core in *. injection Hc as -> -> -> -> ->.
      apply accounting_admit; assumption.
  - (* ServerError *)
    apply pool_inv_keeps; [|exact Hinv]. unfold on_server_error. keeps_auto.
  - (* NextSocket *)
    pose proof (next_socket_core h w) as Hc. rewrite <- exec_core in Hc.
    destruct (sockets (self w)) as [|s rest] eqn:Hs.
    + eapply pool_inv_core; eassumption.
    + unfold pool_inv, core in *. injection Hc as -> -> -> -> ->.
      rewrite Hs in Hinv. apply accounting_lend. exact Hinv.
  - (* PeerFinished *)
    apply pool_inv_keeps; [|exact Hinv]. unfold on_peer_finished.
    destruct (h_sock h); [keeps_auto|]. destruct (h_res h); keeps_auto.
  - (* SocketError *)
    unfold on_socket_error, destroy, exec, bind, emit, modify. cbn.
    unfold pool_inv in *. cbn. apply accounting_error. exact Hinv.
  - (* SocketClose *)
    cbn in Hen. apply andb_true_iff in Hen as [Hadm _].
    apply bool_decide_eq_true in Hadm.
    set (w1 := with_closed (fun c => {[s]} ∪ c)
                 (with_destroyed (fun d => {[s]} ∪ d) w)).
    pose proof (on_socket_close_core s w1) as Hc. rewrite <- exec_core in Hc.
    assert (Hex : exec (do _ <- modify (with_destroyed (fun d => {[s]} ∪ d));
                        do _ <- modify (with_closed (fun c => {[s]} ∪ c));
                        on_socket_close s) w = exec (on_socket_close s) w1)
      by reflexivity.
    rewrite Hex. unfold pool_inv, core in *. injection Hc as -> -> -> -> ->.
    cbn. apply accounting_close; assumption.
  - (* TunnelEnd *)
    unfold exec, bind, modify, when, ret. unfold pool_inv, in_flight in *.
    destruct flushed; cbn; rewrite resolve_socks;
      [apply accounting_error|]; exact Hinv.
  - (* ClientResFinished *)
    unfold exec, modify. unfold pool_inv, in_flight in *. cbn.
    rewrite resolve_socks. exact Hinv.
  - (* Settle *)
    cbn in Hen. destruct (settled_for s (pending (env w))) as [p|] eqn:Hp;
      [|discriminate].
    destruct (remove_promise_socks s _ p Hp) as (l1 & l2 & Hl & Hl').
    set (w1 := with_pending (remove_promise s) w).
    assert (Hex : core (exec (do w0 <- get;
                         match settled_for s (pending (env w0)) with
                         | Some p0 =>
                             do _ <- modify (with_pending (remove_promise s));
                             do _ <- when match p_await p0 with
                                          | Rejected => true
                                          | _ => false
                                          end next_socket_catch;
                             next_socket_finally s
                         | None => ret tt
                         end) w) = core (final (next_socket_finally s w1))).
    { rewrite exec_core. unfold bind at 1, get. rewrite Hp.
      unfold bind at 1, modify. fold w1.
      unfold bind at 1.
      destruct (p_await p); reflexivity. }
    rewrite next_socket_finally_core in Hex.
    unfold pool_inv, core in *. injection Hex as -> -> -> -> ->.
    subst w1. unfold in_flight in *. cbn. rewrite Hl'.
    eapply accounting_return; [exact Hl | exact Hinv].
  - (* Timeout *)
    apply pool_inv_keeps; [|exact Hinv]. keeps_auto.
  - (* ListenerClose *)
    apply pool_inv_keeps; [|exact Hinv]. keeps_auto.
  - (* Data *)
    apply pool_inv_keeps; [|exact Hinv]. keeps_auto.
Qed.

Lemma pool_inv_run (evs : list event) (w : World) :
  pool_inv w -> pool_inv (run evs w).
Proof.
  revert w. induction evs as [|ev evs IH]; intros w Hinv; cbn; [exact Hinv|].
  apply IH, pool_inv_step, Hinv.
Qed.

Lemma pool_inv_fresh (opt : proxy_opt) : pool_inv (fresh opt).
Proof. apply accounting_init. Qed.




(** Through the TypeError of the dequeue path a socket can sit idle while a
    request waits. *)
Lemma idle_socket_beside_waiter :
  sockets (self waiter_beside_socket) = [7] /\
  waiting (self waiter_beside_socket) = [http_handler 1] /\
  calls waiter_beside_socket = [].
Proof. vm_compute. repeat split; reflexivity. Qed.

(** ** Completion of a lent socket *)

Lemma next_socket_finally_eq (s : sock) (w : World) :
  next_socket_finally s w =
    let w1 := if bool_decide (s ∈ destroyed (env w)) then w
              else with_sockets (fun l => l ++ [s]) w in
    if (length (sockets (self w1)) =? 0)%nat then Ok tt w1
    else _process_waiting w1.
Proof.
  unfold next_socket_finally, bind, get.
  destruct (bool_decide (s ∈ destroyed (env w))); cbn -[_process_waiting];
    match goal with |- context [if ?c then _ else _] => destruct c end;
    reflexivity.
Qed.

Lemma next_socket_finally_pending (s : sock) (w : World) :
  pending (env (final (next_socket_finally s w))) = pending (env w).
Proof.
  rewrite next_socket_finally_eq. cbv zeta.
  destruct (bool_decide (s ∈ destroyed (env w)));
    match goal with |- context [if ?c then _ else _] => destruct c end;
    try reflexivity;
    rewrite process_waiting_eq;
    match goal with |- context [waiting ?p] => destruct (waiting p) end;
    reflexivity.
Qed.

Lemma next_socket_finally_sockets (s : sock) (w : World) :
  sockets (self (final (next_socket_finally s w))) =
    sockets (self w) ++ (if bool_decide (s ∈ destroyed (env w)) then [] else [s]).
Proof.
  pose proof (next_socket_finally_core s w) as Hc. unfold core in Hc.
  injection Hc as -> _ _ _ _. reflexivity.
Qed.

Lemma resolve_other (what : await) (s : sock) (ps : list promise) :
  s ∉ map p_sock ps -> resolve what s ps = ps.
Proof.
  unfold resolve. induction ps as [|p ps IH]; cbn; intros Hs; [reflexivity|].
  apply not_elem_of_cons in Hs as [Hne Hs].
  rewrite bool_decide_false by congruence. rewrite IH by exact Hs. reflexivity.
Qed.

Lemma remove_promise_other (s : sock) (ps qs : list promise) :
  s ∉ map p_sock ps ->
  remove_promise s (ps ++ qs) = ps ++ remove_promise s qs.
Proof.
  induction ps as [|p ps IH]; cbn; intros Hs; [reflexivity|].
  apply not_elem_of_cons in Hs as [Hne Hs].
  rewrite bool_decide_false by congruence. cbn. rewrite IH by exact Hs.
  reflexivity.
Qed.

Lemma settled_for_other (s : sock) (ps qs : list promise) :
  s ∉ map p_sock ps -> settled_for s (ps ++ qs) = settled_for s qs.
Proof.
  unfold settled_for. induction ps as [|p ps IH]; cbn; intros Hs; [reflexivity|].
  apply not_elem_of_cons in Hs as [Hne Hs].
  rewrite bool_decide_false by congruence. cbn. apply IH, Hs.
Qed.

(** Once a socket is destroyed and not in the idle list, no callback puts it
    there again: an admit is for a socket not seen before, and the
    completion callback returns a socket only if it is not destroyed. *)
Lemma destroyed_stays_out (ev : event) (w : World) (s : sock) :
  s ∈ destroyed (env w) -> s ∈ admitted (env w) -> s ∉ sockets (self w) ->
  s ∈ destroyed (env (step ev w)) /\ s ∈ admitted (env (step ev w)) /\
  s ∉ sockets (self (step ev w)).
Proof.
  intros Hd Ha Hi. unfold step. destruct (enabled ev w) eqn:Hen; [|auto].
  assert (Hcore : forall w', core w' = core w ->
            s ∈ destroyed (env w') /\ s ∈ admitted (env w') /\ s ∉ sockets (self w')).
  { unfold core. intros w' Hc. injection Hc as -> _ -> -> _. auto. }
  assert (Hk : forall m : M World unit, keeps core m ->
            s ∈ destroyed (env (exec m w)) /\ s ∈ admitted (env (exec m w)) /\
            s ∉ sockets (self (exec m w))).
  { intros m Hm. apply Hcore. rewrite exec_core. apply Hm. }
  destruct ev; cbn [handle].
  - apply Hk. keeps_auto.
  - (* Connection *)
    cbn in Hen. destruct (server (self w)); try discriminate.
    apply negb_true_iff, bool_decide_eq_false in Hen.
    pose proof (handle_socket_core s0 w) as Hc. rewrite <- exec_core in Hc.
    destruct (max_tcp_sockets (self w) <=? Z.of_nat (length (sockets (self w))))%Z;
      [apply Hcore, Hc|].
    unfold core in Hc. injection Hc as -> _ -> -> _.
    repeat split; [assumption | set_solver |].
    intros Hin. apply elem_of_app in Hin as [Hin|Hin]; [contradiction|].
    apply list_elem_of_singleton in Hin. subst. contradiction.
  - apply Hk. unfold on_server_error. keeps_auto.
  - (* NextSocket *)
    pose proof (next_socket_core h w) as Hc. rewrite <- exec_core in Hc.
    destruct (sockets (self w)) as [|s1 rest] eqn:Hs; [apply Hcore, Hc|].
    unfold core in Hc. injection Hc as -> _ -> -> _.
    repeat split; [assumption | assumption | set_solver].
  - apply Hk. unfold on_peer_finished.
    destruct (h_sock h); [keeps_auto|]. destruct (h_res h); keeps_auto.
  - (* SocketError *)
    unfold on_socket_error, destroy, exec, bind, emit, modify. cbn.
    repeat split; [set_solver | assumption | assumption].
  - (* SocketClose *)
    set (w1 := with_closed (fun c => {[s0]} ∪ c)
                 (with_destroyed (fun d => {[s0]} ∪ d) w)).
    pose proof (on_socket_close_core s0 w1) as Hc. rewrite <- exec_core in Hc.
    match goal with |- context [exec ?m w] =>
      change (exec m w) with (exec (on_socket_close s0) w1) end.
    unfold core in Hc. injection Hc as -> _ -> -> _. cbn.
    repeat split; [set_solver | assumption |].
    intros Hin. apply Hi. eapply remove_first_subset. exact Hin.
  - (* TunnelEnd *)
    unfold exec, bind, modify, when, ret. destruct flushed; cbn;
      repeat split; try assumption; set_solver.
  - (* ClientResFinished *)
    unfold exec, modify. cbn. auto.
  - (* Settle *)
    cbn in Hen. destruct (settled_for s0 (pending (env w))) as [p|] eqn:Hp;
      [|discriminate].
    set (w1 := with_pending (remove_promise s0) w).
    match goal with |- context [exec ?m w] => set (cb := m) end.
    assert (Hex : core (exec cb w) = core (final (next_socket_finally s0 w1))).
    { rewrite exec_core. unfold cb, bind at 1, get. rewrite Hp.
      unfold bind at 1, modify. fold w1. unfold bind at 1.
      destruct (p_await p); reflexivity. }
    rewrite next_socket_finally_core in Hex.
    unfold core in Hex. injection Hex as -> _ -> -> _. subst w1. cbn.
    repeat split; [assumption | assumption |].
    intros Hin. apply elem_of_app in Hin as [Hin|Hin]; [contradiction|].
    destruct (bool_decide_reflect (s0 ∈ destroyed (env w))) as [Hd0|Hd0];
      [inversion Hin|].
    apply list_elem_of_singleton in Hin. subst. contradiction.
  - apply Hk. keeps_auto.
  - apply Hk. keeps_auto.
  - apply Hk. keeps_auto.
Qed.

Lemma destroyed_stays_out_run (evs : list event) (w : World) (s : sock) :
  s ∈ destroyed (env w) -> s ∈ admitted (env w) -> s ∉ sockets (self w) ->
  s ∉ sockets (self (run evs w)).
Proof.
  revert w. induction evs as [|ev evs IH]; intros w Hd Ha Hi; [exact Hi|].
  cbn [run fold_left].
  destruct (destroyed_stays_out ev w s Hd Ha Hi) as (Hd' & Ha' & Hi').
  apply IH; assumption.
Qed.

(** C3, as stated, fails: when the tunnel socket of an upgrade signals 'end'
    while a write to it is still pending, the runtime has not destroyed it
    by the time the completion callback runs, and the socket is idle
    again. *)
Lemma upgrade_socket_counterexample :
  deliverable (bridge_events ++ [TunnelEnd 7 false; Settle 7]) (fresh default_opt)
    = true /\
  invoked (trace (env bridge_done)) = [(0, Some 7)] /\
  written 7 (trace (env bridge_done)) = [preamble sample_request] /\
  in_flight bridge_done = [] /\
  destroyed (env bridge_done) = ∅ /\
  sockets (self bridge_done) = [7].
Proof. vm_compute. repeat split; reflexivity. Qed.

(** C3, amended (upgrade consumes the tunnel socket).  In a state a tunnel
    reaches, let the bridge of an upgrade hold the live socket [s] (its
    promise awaits the 'end' of [s]), let [s] signal 'end' and the
    completion callback run.  The promise is gone.  If no write to [s] was
    pending, the runtime has destroyed [s] by then: the socket is not put
    back into the idle list, and it is not in the idle list in any later
    state either.  If a write was pending, [s] is appended to the idle
    list. *)
Theorem bridge_completion
    (opt : proxy_opt) (before after : list event) (s : sock) (h : handler)
    (ps1 ps2 : list promise) (flushed : bool)
    (Hpend : pending (env (run before (fresh opt))) =
               ps1 ++ {| p_sock := s; p_handler := h; p_await := AwaitTunnelEnd |}
                   :: ps2)
    (Hlive : s ∉ destroyed (env (run before (fresh opt)))) :
  let w := run before (fresh opt) in
  let w' := run [TunnelEnd s flushed; Settle s] w in
  pending (env w') = ps1 ++ ps2 /\
  sockets (self w') = sockets (self w) ++ (if flushed then [] else [s]) /\
  (flushed = true -> s ∉ sockets (self (run after w'))).
Proof.
  intros w w'. subst w'.
  pose proof (pool_inv_run before (fresh opt) (pool_inv_fresh opt)) as Hinv.
  fold w in Hpend, Hlive, Hinv.
  destruct Hinv as (Hnd & Htr & _ & _ & _).
  unfold in_flight in Hnd, Htr. rewrite Hpend in Hnd, Htr.
  rewrite map_app in Hnd, Htr. cbn [map p_sock] in Hnd, Htr.
  assert (Hadm : s ∈ admitted (env w)) by (apply Htr; set_solver).
  apply NoDup_app in Hnd as (_ & Hdisj & Hnd).
  assert (Hidle : s ∉ sockets (self w)).
  { intros Hin. apply (Hdisj s Hin). set_solver. }
  apply NoDup_app in Hnd as (_ & Hs1 & Hnd).
  apply NoDup_cons in Hnd as [Hs2 _].
  assert (Hs1' : s ∉ map p_sock ps1).
  { intros Hin. apply (Hs1 s Hin). left. }
  clear Hdisj Hs1 Htr.
  set (settled := {| p_sock := s; p_handler := h; p_await := Settled |}).
  set (mark := fun d : gset sock => if flushed then {[s]} ∪ d else d).
  set (w1 := with_destroyed mark (with_pending (fun _ => ps1 ++ settled :: ps2) w)).
  assert (H1 : step (TunnelEnd s flushed) w = w1).
  { unfold step. cbn [enabled]. rewrite bool_decide_false by exact Hlive.
    cbn [negb]. unfold exec, handle, bind, modify, when, ret.
    assert (Hres : resolve AwaitTunnelEnd s (pending (env w)) = ps1 ++ settled :: ps2).
    { rewrite Hpend. unfold resolve. rewrite map_app. cbn.
      rewrite bool_decide_true by reflexivity.
      fold (resolve AwaitTunnelEnd s ps1). fold (resolve AwaitTunnelEnd s ps2).
      rewrite !resolve_other by assumption. reflexivity. }
    unfold w1, mark, with_destroyed, with_pending, on_env.
    destruct flushed; cbn; rewrite Hres; [reflexivity|].
    destruct w as [? []]; reflexivity. }
  assert (Hfind : settled_for s (pending (env w1)) = Some settled).
  { change (pending (env w1)) with (ps1 ++ settled :: ps2).
    rewrite settled_for_other by assumption. unfold settled_for. cbn.
    rewrite bool_decide_true by reflexivity. reflexivity. }
  set (w2 := with_destroyed mark (with_pending (fun _ => ps1 ++ ps2) w)).
  assert (H2 : step (Settle s) w1 = exec (next_socket_finally s) w2).
  { unfold step. cbn [enabled]. rewrite Hfind.
    unfold exec, handle. unfold bind at 1, get. rewrite Hfind.
    unfold bind at 1, modify. unfold bind at 1. cbn [settled p_await when ret].
    replace (with_pending (remove_promise s) w1) with w2; [reflexivity|].
    unfold w1, w2, with_destroyed, with_pending, on_env. cbn.
    rewrite remove_promise_other by assumption. cbn.
    rewrite bool_decide_true by reflexivity. reflexivity. }
  assert (Hd2 : bool_decide (s ∈ destroyed (env w2)) = flushed).
  { unfold w2, mark. cbn. destruct flushed.
    - apply bool_decide_eq_true. set_solver.
    - apply bool_decide_eq_false. exact Hlive. }
  assert (Hsock : sockets (self (run [TunnelEnd s flushed; Settle s] w)) =
                  sockets (self w) ++ (if flushed then [] else [s])).
  { cbn [run fold_left]. rewrite H1, H2.
    assert (Hex : sockets (self (exec (next_socket_finally s) w2)) =
                  sockets (self (final (next_socket_finally s w2)))).
    { unfold exec. destruct (next_socket_finally s w2); reflexivity. }
    rewrite Hex, next_socket_finally_sockets, Hd2. reflexivity. }
  split; [|split; [exact Hsock|]].
  - cbn [run fold_left]. rewrite H1, H2.
    assert (Hex : pending (env (exec (next_socket_finally s) w2)) =
                  pending (env (final (next_socket_finally s w2)))).
    { unfold exec. destruct (next_socket_finally s w2); reflexivity. }
    rewrite Hex, next_socket_finally_pending. reflexivity.
  - intros ->. apply destroyed_stays_out_run.
    + cbn [run fold_left]. rewrite H1, H2.
      pose proof (next_socket_finally_core s w2) as Hc. rewrite <- exec_core in Hc.
      unfold core in Hc. injection Hc as _ _ _ -> _.
      unfold w2, mark. cbn. set_solver.
    + cbn [run fold_left]. rewrite H1, H2.
      pose proof (next_socket_finally_core s w2) as Hc. rewrite <- exec_core in Hc.
      unfold core in Hc. injection Hc as _ _ -> _ _. exact Hadm.
    + rewrite Hsock, app_nil_r. exact Hidle.
Qed.

Lemma bridge_completion_witness :
  sockets (self (run [TunnelEnd 7 true; Settle 7]
                     (run bridge_events (fresh default_opt)))) = [] /\
  7 ∉ sockets (self (run [Connection 8; NextSocket (http_handler 1)]
                         (run [TunnelEnd 7 true; Settle 7]
                              (run bridge_events (fresh default_opt))))).
Proof.
  destruct (bridge_completion default_opt bridge_events
              [Connection 8; NextSocket (http_handler 1)] 7 (upgrade_handler 0)
              [] [] true) as (_ & H2 & H3).
  - reflexivity.
  - vm_compute. set_solver.
  - split; [exact H2 | exact (H3 eq_refl)].
Defined.

(** ** Cap, shutdown and end signal *)

Lemma handle_socket_at_cap (s : sock) (w : World) :
  (max_tcp_sockets (self w) <= Z.of_nat (length (sockets (self w))))%Z ->
  _handle_socket s w = Ok tt (with_trace (fun t => t ++ [SockEnd s]) w).
Proof.
  intros Hcap. unfold _handle_socket, bind, get.
  destruct (Z.leb_spec (max_tcp_sockets (self w))
              (Z.of_nat (length (sockets (self w)))));
    [reflexivity | lia].
Qed.

(** C5 (cap: at most max_sockets sockets are held, idle plus in flight, and
    an accept at the cap is ended).  Evaluation of the code with cap 1: one
    socket admitted and lent to a request, then a second accept.  The
    second socket is admitted, not ended; the pool holds two sockets. *)
Theorem cap_counts_idle_sockets_only :
  max_tcp_sockets (self over_cap) = 1%Z /\
  sockets (self over_cap) = [8] /\
  in_flight over_cap = [7] /\
  length (tracked over_cap) = 2 /\
  admitted (env over_cap) = [7; 8] /\
  size over_cap = 2 /\
  trace (env over_cap) = [Invoke 0 (Some 7); HttpRequest 0 7].
Proof. vm_compute. repeat split; reflexivity. Qed.

Lemma invoke_calls (h : handler) (arg : option sock) (w : World) :
  calls (final (invoke h arg w)) = calls w ++ [(h_id h, arg)].
Proof.
  unfold invoke, bind, emit, modify.
  set (w1 := with_trace (fun t => t ++ [Invoke (h_id h) arg]) w).
  assert (Hk : keeps calls (try_catch (bounce_handler h arg)
                              (fun _ => ret Rejected))) by keeps_auto.
  rewrite Hk. unfold calls, w1. cbn. apply invoked_app.
Qed.

Lemma forEach_invoke_calls (hs : list handler) (w : World) :
  calls (final (forEach (fun h => do _ <- invoke h None; ret tt) hs w)) =
    calls w ++ map (fun h => (h_id h, None)) hs.
Proof.
  revert w. induction hs as [|h hs IH]; intros w; cbn [forEach map].
  - cbn. rewrite app_nil_r. reflexivity.
  - destruct (invoke_ok h None w) as (a & w' & Hi).
    pose proof (invoke_calls h None w) as Hc. rewrite Hi in Hc. cbn in Hc.
    assert (Hh : (do _ <- invoke h None; ret tt) w = Ok tt w')
      by (unfold bind; rewrite Hi; reflexivity).
    unfold bind at 1. rewrite Hh, IH, Hc, <- app_assoc. reflexivity.
Qed.

(** One run of [_cleanup] calls every waiter with null, once each and in
    queue order, and leaves the queue as it was. *)
Lemma cleanup_notifies_each_waiter (w : World) :
  calls (final (_cleanup w)) =
    calls w ++ map (fun h => (h_id h, None)) (waiters w) /\
  waiters (final (_cleanup w)) = waiters w.
Proof.
  split; [|apply keeps_waiters_cleanup].
  set (w1 := with_conn_timeout false w).
  assert (Heq : _cleanup w =
            match forEach (fun h => do _ <- invoke h None; ret tt) (waiters w) w1 with
            | Ok _ w2 => Ok tt (with_trace (fun t => t ++ [Emit "end"]) w2)
            | Throw e w2 => Throw e w2
            end) by reflexivity.
  rewrite Heq.
  pose proof (forEach_invoke_calls (waiters w) w1) as Hf.
  destruct (forEach _ (waiters w) w1) as [u w2|e w2]; cbn in Hf |- *.
  - unfold calls in *. cbn. rewrite invoked_app, Hf. cbn.
    rewrite app_nil_r. reflexivity.
  - exact Hf.
Qed.

(** C6 (shutdown: every waiter gets null exactly once, none twice, and the
    queue takes no further deliveries).  Evaluation of the code on a tunnel
    that closes while a request waits and a socket is still connected: when
    the last socket is destroyed the listener emits 'close' and the cleanup
    calls the waiter with null, leaving it queued; the 'close' of the socket
    arms the idle timer once more, the timer calls [close()] on the closed
    listener, 'close' is emitted again and the cleanup calls the same waiter
    with null a second time. *)
Theorem waiter_notified_twice :
  deliverable
    (listener_closed_events ++
       [SocketClose 7; PeerFinished (http_handler 3); Timeout; ListenerClose])
    (fresh default_opt) = true /\
  server (self cleaned_once) = Closed /\
  invocations 3 (trace (env cleaned_once)) = [None] /\
  waiting (self cleaned_once) = [http_handler 3] /\
  conn_timeout (self (step (SocketClose 7) cleaned_once)) = true /\
  invocations 3 (trace (env cleaned_twice)) = [None; None] /\
  waiting (self cleaned_twice) = [http_handler 3].
Proof. vm_compute. repeat split; reflexivity. Qed.

(** C7 (the end signal is emitted exactly once, also when the timer fires
    on a closed listener).  Evaluation of the code on the same run: the
    listener's 'close' runs the cleanup and 'end' is emitted; the idle
    timer, armed again by the 'close' of the last socket, fires on the
    closed listener, where [close()] does not throw but makes the listener
    emit 'close' again; the cleanup runs again and 'end' is emitted a second
    time. *)
Theorem end_emitted_twice :
  deliverable
    (listener_closed_events ++
       [SocketClose 7; PeerFinished (http_handler 3); Timeout; ListenerClose])
    (fresh default_opt) = true /\
  server (self cleaned_once) = Closed /\
  emitted "end" (trace (env cleaned_once)) = 1 /\
  server (self (run timer_on_closed_listener (fresh default_opt))) = Closing /\
  emitted "end" (trace (env (run timer_on_closed_listener (fresh default_opt)))) = 1 /\
  server (self cleaned_twice) = Closed /\
  emitted "end" (trace (env cleaned_twice)) = 2.
Proof. vm_compute. repeat split; reflexivity. Qed.

(** A handler whose peer is gone does nothing with the socket it gets. *)
Lemma finished_handler_returns (h : handler) (s : sock) (w : World) :
  h_id h ∈ finished (env w) -> bounce_handler h (Some s) w = Ok Settled w.
Proof.
  intros Hf. unfold bounce_handler, bind, gets. cbn.
  rewrite bool_decide_true by exact Hf. reflexivity.
Qed.

(** C9 (peer-disconnect safety: the socket lent to a finished request goes
    back to the idle list and serves the next waiter).  Evaluation of the
    code with two requests waiting, the peer of the first gone, and a socket
    admitted: the admit stops with the TypeError, no handler is invoked, and
    the second request keeps waiting while the socket is idle. *)
Theorem next_waiter_not_served :
  0 ∈ finished (env peer_gone_then_admit) /\
  invoked (trace (env peer_gone_then_admit)) = [] /\
  sockets (self peer_gone_then_admit) = [7] /\
  waiting (self peer_gone_then_admit) = [http_handler 1] /\
  trace (env peer_gone_then_admit) = [ConnDestroy 0; Uncaught ingo_error].
Proof. vm_compute. repeat split; reflexivity. Qed.

(** ** Management routes *)

(** When the requested id is free the response of [/:req_id] is consistent:
    its id is the requested one and its url names it. *)
Lemma get_req_id_free (rand_id : nat -> string) (req_id : string)
    (req_host : option string) (opt : options) (os_port : nat) (s : ServerState) :
  valid_req_id req_id = true ->
  clients s !! req_id = None ->
  answer (get_req_id rand_id req_id req_host opt os_port s) =
    Some (Json 200
            {| i_port := os_port;
               i_max_conn_count :=
                 max_tcp_sockets
                   (Proxy_new {| opt_id := req_id;
                                 opt_max_tcp_sockets := o_max_tcp_sockets opt |});
               i_id := req_id;
               i_url := Some (schema opt +:+ "://" +:+ req_id +:+ "." +:+
                              js_string req_host) |}).
Proof.
  intros Hvalid Hfree. unfold get_req_id. rewrite Hvalid. cbn [negb].
  unfold new_client, bind, get, with_client. cbn -[Proxy_new].
  rewrite Hfree.
  rewrite bool_decide_false by (intros [x Hx]; discriminate).
  reflexivity.
Qed.

(** C8 (the url of a create response names the id of the same response).
    Evaluation of both routes on a registry in which abcd is in use: the id
    of the response is the substitute, the url names the requested id. *)
Theorem url_names_requested_id :
  is_Some (clients abcd_taken !! "abcd") /\
  valid_req_id "abcd" = true /\
  answer (get_req_id rand_wxyz "abcd" (Some "example.com") sample_options 4001
            abcd_taken)
    = Some (Json 200 {| i_port := 4001; i_max_conn_count := 10;
                        i_id := "wxyz";
                        i_url := Some "http://abcd.example.com" |}) /\
  answer (get_root rand_abcd_then_wxyz true (Some "example.com") sample_options
            4001 abcd_taken)
    = Some (Json 200 {| i_port := 4001; i_max_conn_count := 10;
                        i_id := "wxyz";
                        i_url := Some "http://abcd.example.com" |}).
Proof.
  split; [|split; [|split]]; try (vm_compute; reflexivity).
  vm_compute. eexists. reflexivity.
Qed.

(** ** The upgrade path *)

(** C10 (the head buffer of an upgrade never reaches the tunnel).  For an
    upgrade request on connection [p] for a known subdomain: whatever
    [head] is, [on_upgrade] ends in the same state;
    when the tunnel has an idle socket [t] the handler is invoked with it
    and the only data written to [t] is the preamble rebuilt from the
    request, and a chunk the peer socket emits afterwards is what is written
    to [t] next; when the tunnel has no idle socket nothing is written. *)
Theorem head_is_discarded
    (getSubdomain : string -> option string)
    (p : nat) (req : request) (head : option string) (s : ServerState)
    (hostname sub : string) (client : Proxy)
    (Hhost : truthy (host req) = Some hostname)
    (Hsub : truthy (getSubdomain hostname) = Some sub)
    (Hclient : clients s !! sub = Some client) :
  (forall head', on_upgrade getSubdomain p req head' s
                 = on_upgrade getSubdomain p req head s) /\
  trace (senv (final (on_upgrade getSubdomain p req head s))) =
    trace (senv s) ++
      match sockets client with
      | [] => []
      | t :: _ => [Invoke p (Some t);
                   PipeTo (Tunnel t) (Peer p);
                   PipeTo (Peer p) (Tunnel t);
                   Write (Tunnel t) (preamble req)]
      end /\
  (forall t rest chunk w,
     sockets client = t :: rest ->
     pipes_from (Peer p) (trace (senv s)) = [] ->
     env w = senv (final (on_upgrade getSubdomain p req head s)) ->
     trace (env (step (Data (Peer p) chunk) w)) =
       trace (env w) ++ [Write (Tunnel t) chunk]).
Proof.
  assert (Htrace :
    trace (senv (final (on_upgrade getSubdomain p req head s))) =
      trace (senv s) ++
        match sockets client with
        | [] => []
        | t :: _ => [Invoke p (Some t);
                     PipeTo (Tunnel t) (Peer p);
                     PipeTo (Peer p) (Tunnel t);
                     Write (Tunnel t) (preamble req)]
        end).
  { unfold on_upgrade, maybe_bounce. cbn -[truthy next_socket].
    unfold bind at 1. cbn -[truthy next_socket]. rewrite Hhost, Hsub.
    unfold bind, get, with_client, ret. rewrite Hclient.
    unfold next_socket, shift_sockets, bind, get. cbn -[preamble].
    destruct (sockets client) as [|t rest]; cbn -[preamble].
    - rewrite app_nil_r. reflexivity.
    - unfold try_catch, bounce_handler, bind, gets. cbn -[preamble].
      rewrite bool_decide_false by set_solver. cbn -[preamble].
      rewrite <- !app_assoc. reflexivity. }
  split; [reflexivity|]. split; [exact Htrace|].
  intros t rest chunk w Hidle Hpipes Henv.
  rewrite Hidle in Htrace. rewrite <- Henv in Htrace.
  unfold step. cbn [enabled]. unfold exec, handle, bind, get.
  assert (Hp : pipes_from (Peer p) (trace (env w)) = [Tunnel t]).
  { rewrite Htrace.
    assert (Happ : forall t1 t2, pipes_from (Peer p) (t1 ++ t2)
                      = pipes_from (Peer p) t1 ++ pipes_from (Peer p) t2).
    { induction t1 as [|a t1 IH]; intros t2; [reflexivity|].
      destruct a; cbn; try apply IH.
      destruct src; [apply IH|].
      destruct (decide (p = p0)); cbn; rewrite IH; reflexivity. }
    rewrite Happ, Hpipes. cbn.
    destruct (decide (p = p)); [reflexivity | congruence]. }
  rewrite Hp. reflexivity.
Qed.

Lemma head_is_discarded_witness :
  trace (senv (final (on_upgrade sample_getSubdomain 3 sample_request
                        (Some "leftover bytes") abcd_with_socket))) =
    [Invoke 3 (Some 7);
     PipeTo (Tunnel 7) (Peer 3);
     PipeTo (Peer 3) (Tunnel 7);
     Write (Tunnel 7) (preamble sample_request)].
Proof.
  refine (proj1 (proj2 (head_is_discarded sample_getSubdomain 3 sample_request
                          (Some "leftover bytes") abcd_with_socket
                          "abcd.example.com" "abcd"
                          (self (run [Start 4000; Connection 7] (fresh default_opt)))
                          eq_refl eq_refl _))).
  vm_compute. reflexivity.
Defined.

(** * Further properties of proxy.js *)

Lemma invoked_uncaught (t : list action) (e : exn) :
  invoked (t ++ [Uncaught e]) = invoked t.
Proof. rewrite invoked_app. cbn. apply app_nil_r. Qed.

Lemma exec_calls (m : M World unit) (w : World) :
  calls (exec m w) = calls (final (m w)).
Proof.
  unfold exec. destruct (m w); [reflexivity|]. unfold calls. cbn.
  apply invoked_uncaught.
Qed.

Lemma exec_waiters (m : M World unit) (w : World) :
  waiters (exec m w) = waiters (final (m w)).
Proof. unfold exec. destruct (m w); reflexivity. Qed.

(** X1.  The cap of a tunnel is the number given as [max_tcp_sockets],
    unless that is absent or 0: then it is 10.  After [start], the first
    socket that dials in is admitted if the cap is at least 1: it becomes
    the only idle socket and the idle timer is cleared.  With a cap below
    1, which only a negative option gives, the socket is ended instead: it
    is not admitted and the idle timer stays armed. *)
Theorem first_dial_admitted (opt : proxy_opt) (os_port : nat) (s : sock) :
  let cap := max_tcp_sockets (self (fresh opt)) in
  let w := run [Start os_port; Connection s] (fresh opt) in
  cap = match opt_max_tcp_sockets opt with
        | Some 0%Z | None => 10%Z
        | Some n => n
        end /\
  ((1 <= cap)%Z ->
   sockets (self w) = [s] /\ admitted (env w) = [s] /\
   conn_timeout (self w) = false /\ trace (env w) = []) /\
  ((cap < 1)%Z ->
   opt_max_tcp_sockets opt = Some cap /\
   sockets (self w) = [] /\ admitted (env w) = [] /\
   conn_timeout (self w) = true /\ trace (env w) = [SockEnd s]).
Proof.
  destruct opt as [i [[|n|n]|]]; cbn; (split; [reflexivity|]);
    split; intros Hcap; try lia; repeat split.
Qed.

Lemma first_dial_admitted_witness :
  sockets (self (run [Start 4000; Connection 7] (fresh default_opt))) = [7] /\
  trace (env (run [Start 4000; Connection 7] (fresh negative_cap_opt))) = [SockEnd 7].
Proof.
  split.
  - apply (proj1 (proj2 (first_dial_admitted default_opt 4000 7))). cbn. lia.
  - apply (proj2 (proj2 (first_dial_admitted negative_cap_opt 4000 7))). cbn. lia.
Defined.

(** X2.  [start] works once: on a tunnel that was not started it reports
    the port and the cap, leaves the listener listening and the idle timer
    armed; a second call reports 'already started' and changes nothing. *)
Theorem start_only_once (os_port os_port' : nat) (w : World)
    (Hfresh : started (self w) = false) :
  exists w1,
    start os_port w =
      Ok (inr {| port := os_port; max_conn_count := max_tcp_sockets (self w) |}) w1 /\
    server (self w1) = Listening /\
    conn_timeout (self w1) = true /\
    started (self w1) = true /\
    start os_port' w1 = Ok (inl (Error "already started")) w1.
Proof.
  eexists. unfold start at 1. unfold bind, get. cbn. rewrite Hfresh. cbn.
  split; [reflexivity|]. repeat split.
Qed.

Lemma start_only_once_witness :
  exists w1,
    start 4000 (fresh default_opt) =
      Ok (inr {| port := 4000; max_conn_count := 10 |}) w1 /\
    server (self w1) = Listening /\
    conn_timeout (self w1) = true /\
    started (self w1) = true /\
    start 4001 w1 = Ok (inl (Error "already started")) w1.
Proof. exact (start_only_once 4000 4001 (fresh default_opt) eq_refl). Defined.

Lemma next_socket_calls (h : handler) (w : World) :
  calls (final (next_socket h w)) =
    match sockets (self w) with
    | [] => calls w
    | s :: _ => calls w ++ [(h_id h, Some s)]
    end.
Proof.
  unfold next_socket, shift_sockets, bind, get.
  destruct (sockets (self w)) as [|s rest] eqn:Hs; cbn -[invoke]; [reflexivity|].
  destruct (invoke_ok h (Some s) (with_sockets (fun _ => rest) w)) as (a & w' & Hi).
  pose proof (invoke_calls h (Some s) (with_sockets (fun _ => rest) w)) as Hc.
  rewrite Hi in *. exact Hc.
Qed.

Lemma next_socket_waiters (h : handler) (w : World) :
  waiters (final (next_socket h w)) =
    match sockets (self w) with
    | [] => waiters w ++ [h]
    | _ :: _ => waiters w
    end.
Proof.
  unfold next_socket, shift_sockets, bind, get.
  destruct (sockets (self w)) as [|s rest] eqn:Hs; cbn -[invoke]; [reflexivity|].
  destruct (invoke_ok h (Some s) (with_sockets (fun _ => rest) w)) as (a & w' & Hi).
  pose proof (keeps_waiters_invoke h (Some s) (with_sockets (fun _ => rest) w)) as Hk.
  rewrite Hi in *. exact Hk.
Qed.

(** X3.  Idle sockets are lent first in, first out: when as many idle
    sockets are there as requests come in, the i-th request gets the i-th
    idle socket, each handler is called exactly once, nobody is queued, and
    the lent sockets are in flight in that order. *)
Theorem idle_sockets_lent_in_order (hs : list handler) (w : World)
    (Henough : length hs <= length (sockets (self w))) :
  calls (run (map NextSocket hs) w) =
    calls w ++ zip (map h_id hs) (map Some (take (length hs) (sockets (self w)))) /\
  sockets (self (run (map NextSocket hs) w)) = drop (length hs) (sockets (self w)) /\
  in_flight (run (map NextSocket hs) w) =
    in_flight w ++ take (length hs) (sockets (self w)) /\
  waiters (run (map NextSocket hs) w) = waiters w.
Proof.
  revert w Henough. induction hs as [|h hs IH]; intros w Henough.
  - cbn. rewrite !app_nil_r, drop_0. repeat split.
  - destruct (sockets (self w)) as [|s rest] eqn:Hs; [cbn in Henough; lia|].
    cbn [map run fold_left]. fold (run (map NextSocket hs) (step (NextSocket h) w)).
    assert (Hstep : step (NextSocket h) w = exec (next_socket h) w) by reflexivity.
    pose proof (next_socket_core h w) as Hcore. rewrite <- exec_core, <- Hstep in Hcore.
    pose proof (next_socket_calls h w) as Hcalls. rewrite <- exec_calls, <- Hstep in Hcalls.
    pose proof (next_socket_waiters h w) as Hwait. rewrite <- exec_waiters, <- Hstep in Hwait.
    rewrite Hs in Hcore, Hcalls, Hwait. unfold core in Hcore.
    injection Hcore as Hsock Hfl _ _ _.
    set (w1 := step (NextSocket h) w) in *.
    destruct (IH w1) as (IH1 & IH2 & IH3 & IH4);
      [rewrite Hsock; cbn in Henough; lia|].
    rewrite IH1, IH2, IH3, IH4, Hsock, Hfl, Hcalls, Hwait. cbn.
    rewrite <- !app_assoc. repeat split.
Qed.

Lemma idle_sockets_lent_in_order_witness :
  calls (run (map NextSocket [http_handler 0; upgrade_handler 1]) two_idle) =
    [(0, Some 7); (1, Some 8)] /\
  sockets (self (run (map NextSocket [http_handler 0; upgrade_handler 1]) two_idle)) = [].
Proof.
  destruct (idle_sockets_lent_in_order [http_handler 0; upgrade_handler 1] two_idle)
    as (H1 & H2 & _).
  - vm_compute. lia.
  - split; [exact H1 | exact H2].
Defined.

(** X4.  Without an idle socket requests queue up in the order they come:
    nothing but the waiter queue changes, no handler is called and nothing
    is thrown. *)
Theorem requests_queue_in_order (hs : list handler) (w : World)
    (Hnone : sockets (self w) = []) :
  run (map NextSocket hs) w = with_waiting (fun q => q ++ hs) w.
Proof.
  revert w Hnone. induction hs as [|h hs IH]; intros w Hnone.
  - destruct w as [[] e]. unfold with_waiting, on_self. cbn.
    rewrite app_nil_r. reflexivity.
  - cbn [map run fold_left]. fold (run (map NextSocket hs) (step (NextSocket h) w)).
    assert (Hstep : step (NextSocket h) w = with_waiting (fun q => q ++ [h]) w).
    { unfold step, exec, handle, next_socket, shift_sockets, bind, get. cbn.
      rewrite Hnone. reflexivity. }
    rewrite Hstep, IH by (destruct w as [[] e]; exact Hnone).
    destruct w as [[] e]. unfold with_waiting, on_self. cbn.
    rewrite <- app_assoc. reflexivity.
Qed.

Lemma requests_queue_in_order_witness :
  waiting (self (run (map NextSocket [http_handler 0; http_handler 1]) just_started)) =
    [http_handler 0; http_handler 1].
Proof.
  rewrite (requests_queue_in_order [http_handler 0; http_handler 1] just_started eq_refl).
  reflexivity.
Defined.

(** X5.  A socket that dials in while the idle list has reached the cap is
    ended and that is all: it is not admitted, gets no listeners, and the
    idle timer is left as it was. *)
Theorem dial_at_cap_is_ended (s : sock) (w : World)
    (Hlistening : server (self w) = Listening)
    (Hnew : s ∉ admitted (env w))
    (Hcap : (max_tcp_sockets (self w) <= Z.of_nat (length (sockets (self w))))%Z) :
  step (Connection s) w = with_trace (fun t => t ++ [SockEnd s]) w.
Proof.
  unfold step. cbn [enabled]. rewrite Hlistening.
  rewrite bool_decide_false by exact Hnew. cbn [negb handle].
  unfold exec. rewrite handle_socket_at_cap by exact Hcap. reflexivity.
Qed.

Lemma dial_at_cap_is_ended_witness :
  step (Connection 8) full_house = with_trace (fun t => t ++ [SockEnd 8]) full_house.
Proof.
  apply dial_at_cap_is_ended.
  - reflexivity.
  - vm_compute. set_solver.
  - vm_compute. discriminate.
Defined.

Lemma with_trace_app (a b : list action) (w : World) :
  with_trace (fun t => t ++ b) (with_trace (fun t => t ++ a) w) =
    with_trace (fun t => t ++ (a ++ b)) w.
Proof.
  destruct w as [p []]. unfold with_trace, on_env, env_trace. cbn.
  rewrite app_assoc. reflexivity.
Qed.

Lemma with_trace_nil (w : World) : with_trace (fun t => t ++ []) w = w.
Proof.
  destruct w as [p []]. unfold with_trace, on_env, env_trace. cbn.
  rewrite app_nil_r. reflexivity.
Qed.

Lemma bounce_handler_effects (h : handler) (arg : option sock) (w : World) :
  final (bounce_handler h arg w) =
    with_trace (fun t => t ++
      handler_effects (bool_decide (h_id h ∈ finished (env w))) h arg) w.
Proof.
  unfold bounce_handler, handler_effects, http_request_on, bind, gets, emit, modify.
  cbn -[preamble].
  destruct (bool_decide (h_id h ∈ finished (env w))); cbn -[preamble].
  - symmetry. apply with_trace_nil.
  - destruct arg as [s|], (h_res h), (h_sock h); cbn -[preamble];
      rewrite ?with_trace_app; try reflexivity.
    all: symmetry; apply with_trace_nil.
Qed.

(** X6.  Calling a handler never fails and touches nothing but the trace:
    the call itself and then, by case, nothing when the peer is already
    gone; 504 and the destruction of the peer connection when it is called
    with null; the request on the socket, or for an upgrade the two pipes
    and the preamble, when it is called with a socket. *)
Theorem handler_call_effects (h : handler) (arg : option sock) (w : World) :
  exists a,
    invoke h arg w = Ok a (with_trace (fun t => t ++ call_effects w h arg) w).
Proof.
  unfold invoke, bind, emit, modify, try_catch, call_effects.
  set (w1 := with_trace (fun t => t ++ [Invoke (h_id h) arg]) w).
  pose proof (bounce_handler_effects h arg w1) as He.
  assert (Hfin : finished (env w1) = finished (env w)) by reflexivity.
  rewrite Hfin in He. unfold w1 in He. rewrite with_trace_app in He.
  fold w1 in He. cbn [app] in He.
  destruct (bounce_handler h arg w1) as [a w2|e w2]; cbn in He; subst w2.
  - exists a. reflexivity.
  - exists Rejected. reflexivity.
Qed.

Lemma forEach_invoke_effects (hs : list handler) (w : World) :
  forEach (fun h => do _ <- invoke h None; ret tt) hs w =
    Ok tt (with_trace (fun t => t ++ flat_map (fun h => call_effects w h None) hs) w).
Proof.
  assert (Hgen : forall pre,
    forEach (fun h => do _ <- invoke h None; ret tt) hs
      (with_trace (fun t => t ++ pre) w) =
    Ok tt (with_trace
             (fun t => t ++ (pre ++ flat_map (fun h => call_effects w h None) hs)) w)).
  { induction hs as [|h hs IH]; intros pre; cbn [forEach flat_map].
    - rewrite app_nil_r. reflexivity.
    - unfold bind at 1. unfold bind at 1.
      destruct (handler_call_effects h None (with_trace (fun t => t ++ pre) w))
        as [a Ha].
      rewrite Ha. cbn [ret]. rewrite with_trace_app.
      assert (Hc : call_effects (with_trace (fun t => t ++ pre) w) h None
                   = call_effects w h None) by reflexivity.
      rewrite Hc, IH, <- app_assoc. reflexivity. }
  specialize (Hgen []). rewrite with_trace_nil in Hgen. exact Hgen.
Qed.

(** X7.  [_cleanup] never fails.  It disarms the idle timer, calls every
    queued handler with null, once each and in queue order, emits 'end'
    once, and leaves everything else, the waiter queue included, as it
    was. *)
Theorem cleanup_effects (w : World) :
  _cleanup w =
    Ok tt (with_trace
             (fun t => t ++ flat_map (fun h => call_effects w h None) (waiting (self w))
                         ++ [Emit "end"])
             (with_conn_timeout false w)).
Proof.
  set (w1 := with_conn_timeout false w).
  assert (Heq : _cleanup w =
            match forEach (fun h => do _ <- invoke h None; ret tt)
                          (waiting (self w)) w1 with
            | Ok _ w2 => Ok tt (with_trace (fun t => t ++ [Emit "end"]) w2)
            | Throw e w2 => Throw e w2
            end) by reflexivity.
  rewrite Heq, forEach_invoke_effects, with_trace_app. reflexivity.
Qed.

Lemma run_app (evs1 evs2 : list event) (w : World) :
  run (evs1 ++ evs2) w = run evs2 (run evs1 w).
Proof. unfold run. apply fold_left_app. Qed.

(** X8.  A tunnel nobody dials: requests that arrive queue up, the idle
    timer closes the listener, and when the listener has closed every
    queued request is answered, in order, with 504 and the destruction of
    its connection; 'end' is emitted once. *)
Theorem idle_tunnel_drains (opt : proxy_opt) (os_port : nat) (hs : list handler) :
  let w := run (Start os_port :: map NextSocket hs ++ [Timeout; ListenerClose])
               (fresh opt) in
  trace (env w) =
    flat_map (fun h => Invoke (h_id h) None :: handler_effects false h None) hs
      ++ [Emit "end"] /\
  server (self w) = Closed /\
  conn_timeout (self w) = false /\
  sockets (self w) = [] /\
  admitted (env w) = [].
Proof.
  intros w. subst w.
  change (Start os_port :: map NextSocket hs ++ [Timeout; ListenerClose])
    with ([Start os_port] ++ map NextSocket hs ++ [Timeout; ListenerClose]).
  rewrite !run_app.
  set (w1 := run [Start os_port] (fresh opt)).
  rewrite (requests_queue_in_order hs w1) by reflexivity.
  set (w2 := with_waiting (fun q => q ++ hs) w1).
  assert (H3 : step Timeout w2 = with_server Closing (with_conn_timeout false w2))
    by reflexivity.
  cbn [run fold_left]. rewrite H3.
  set (w3 := with_server Closing (with_conn_timeout false w2)).
  assert (H4 : step ListenerClose w3 = exec _cleanup (with_server Closed w3))
    by reflexivity.
  rewrite H4. unfold exec. rewrite cleanup_effects. cbn.
  repeat split.
Qed.

Lemma pipes_from_app (src : endpoint) (t1 t2 : list action) :
  pipes_from src (t1 ++ t2) = pipes_from src t1 ++ pipes_from src t2.
Proof.
  induction t1 as [|a t1 IH]; [reflexivity|].
  destruct a; cbn; try apply IH.
  destruct src as [x|x], src0 as [y|y]; try apply IH;
    destruct (decide (x = y)); cbn; rewrite IH; reflexivity.
Qed.

Lemma pipes_from_writes (src : endpoint) (t : list action) (ws : list action) :
  (forall a, a ∈ ws -> exists dst d, a = Write dst d) ->
  pipes_from src (t ++ ws) = pipes_from src t.
Proof.
  intros Hws. rewrite pipes_from_app.
  assert (Hnil : pipes_from src ws = []).
  { induction ws as [|a ws IH]; [reflexivity|].
    destruct (Hws a) as (dst & d & ->); [left|]. cbn. apply IH.
    intros b Hb. apply Hws. right. exact Hb. }
  rewrite Hnil. apply app_nil_r.
Qed.

Lemma data_step (src dst : endpoint) (chunk : string) (w : World) :
  pipes_from src (trace (env w)) = [dst] ->
  step (Data src chunk) w = with_trace (fun t => t ++ [Write dst chunk]) w.
Proof.
  intros Hp. unfold step, exec, handle, bind, get. cbn [enabled].
  rewrite Hp. reflexivity.
Qed.

(** X9.  A bridged upgrade passes traffic through: once the handler of an
    upgrade request is lent the idle socket [s] it writes the preamble to
    [s], and from then on every chunk the peer sends is written to [s] and
    every chunk [s] sends is written to the peer, unchanged and in the order
    of arrival; nothing else is written. *)
Theorem upgrade_passthrough
    (w : World) (s : sock) (rest : list sock) (h : handler)
    (traffic : list (bool * string))
    (Hidle : sockets (self w) = s :: rest)
    (Hres : h_res h = false) (Hsock : h_sock h = true)
    (Hlive : h_id h ∉ finished (env w))
    (Hpeer : pipes_from (Peer (h_id h)) (trace (env w)) = [])
    (Htunnel : pipes_from (Tunnel s) (trace (env w)) = []) :
  trace (env (run (NextSocket h :: map (chunk_event (h_id h) s) traffic) w)) =
    trace (env w) ++
      [Invoke (h_id h) (Some s);
       PipeTo (Tunnel s) (Peer (h_id h));
       PipeTo (Peer (h_id h)) (Tunnel s);
       Write (Tunnel s) (preamble (h_req h))] ++
      map (chunk_write (h_id h) s) traffic.
Proof.
  set (wired := [Invoke (h_id h) (Some s);
                 PipeTo (Tunnel s) (Peer (h_id h));
                 PipeTo (Peer (h_id h)) (Tunnel s);
                 Write (Tunnel s) (preamble (h_req h))]).
  cbn [run fold_left].
  fold (run (map (chunk_event (h_id h) s) traffic) (step (NextSocket h) w)).
  set (w1 := step (NextSocket h) w).
  assert (H1 : trace (env w1) = trace (env w) ++ wired).
  { unfold w1, step, exec, handle, next_socket, shift_sockets, bind, get.
    cbn [enabled]. rewrite Hidle. cbn -[invoke preamble].
    destruct (handler_call_effects h (Some s) (with_sockets (fun _ => rest) w))
      as [a Ha].
    rewrite Ha. cbn -[preamble]. unfold call_effects. cbn -[preamble].
    rewrite bool_decide_false by exact Hlive.
    unfold handler_effects. rewrite Hres, Hsock. reflexivity. }
  assert (Hgen : forall tr w0,
            pipes_from (Peer (h_id h)) (trace (env w0)) = [Tunnel s] ->
            pipes_from (Tunnel s) (trace (env w0)) = [Peer (h_id h)] ->
            trace (env (run (map (chunk_event (h_id h) s) tr) w0)) =
              trace (env w0) ++ map (chunk_write (h_id h) s) tr).
  { induction tr as [|[b c] tr IH]; intros w0 Hp Ht.
    - cbn. rewrite app_nil_r. reflexivity.
    - cbn [map run fold_left].
      fold (run (map (chunk_event (h_id h) s) tr)
                (step (chunk_event (h_id h) s (b, c)) w0)).
      assert (Hstep : step (chunk_event (h_id h) s (b, c)) w0 =
                with_trace (fun t => t ++ [chunk_write (h_id h) s (b, c)]) w0).
      { unfold chunk_event, chunk_write. destruct b; cbn [fst snd];
          apply data_step; assumption. }
      rewrite Hstep, IH.
      + cbn. rewrite <- app_assoc. reflexivity.
      + cbn. rewrite pipes_from_writes; [exact Hp|].
        intros a Ha. apply list_elem_of_singleton in Ha. subst. unfold chunk_write. eauto.
      + cbn. rewrite pipes_from_writes; [exact Ht|].
        intros a Ha. apply list_elem_of_singleton in Ha. subst. unfold chunk_write. eauto. }
  rewrite Hgen, H1.
  - rewrite <- app_assoc. reflexivity.
  - rewrite H1, pipes_from_app, Hpeer. cbn.
    destruct (decide (h_id h = h_id h)); [reflexivity | congruence].
  - rewrite H1, pipes_from_app, Htunnel. cbn.
    destruct (decide (s = s)); [reflexivity | congruence].
Qed.

Lemma upgrade_passthrough_witness :
  trace (env (run (NextSocket (upgrade_handler 0)
                   :: map (chunk_event 0 7) [(true, "ping"); (false, "pong")])
                  two_idle)) =
    [Invoke 0 (Some 7);
     PipeTo (Tunnel 7) (Peer 0);
     PipeTo (Peer 0) (Tunnel 7);
     Write (Tunnel 7) (preamble sample_request);
     Write (Tunnel 7) "ping";
     Write (Peer 0) "pong"].
Proof.
  refine (upgrade_passthrough two_idle 7 [8] (upgrade_handler 0)
            [(true, "ping"); (false, "pong")] eq_refl eq_refl eq_refl _ eq_refl eq_refl).
  vm_compute. set_solver.
Defined.

(** ** Life cycle of the listener *)

Lemma emitted_app (ev : string) (t1 t2 : list action) :
  emitted ev (t1 ++ t2) = emitted ev t1 + emitted ev t2.
Proof.
  induction t1 as [|a t1 IH]; [reflexivity|].
  destruct a; cbn; try apply IH.
  destruct (decide (ev0 = ev)); cbn; rewrite IH; reflexivity.
Qed.

Lemma life_with_trace (extra : list action) (w : World) :
  emitted "end" extra = 0 ->
  life (with_trace (fun t => t ++ extra) w) = life w.
Proof.
  intros He. unfold life, ends. cbn. rewrite emitted_app, He, Nat.add_0_r.
  reflexivity.
Qed.

Ltac life_step :=
  first
    [ solve [auto with keeps]
    | apply keeps_bind; [|intros ?]
    | apply keeps_try_catch; [|intros ?]
    | apply keeps_when
    | apply keeps_forEach; intros ?
    | apply keeps_modify; intros ?;
      solve [ reflexivity
            | apply (life_with_trace [_]); reflexivity ] ].

Ltac life_auto := repeat life_step.

Lemma call_effects_no_end (w : World) (h : handler) (arg : option sock) :
  emitted "end" (call_effects w h arg) = 0.
Proof.
  unfold call_effects, handler_effects. cbn.
  destruct (bool_decide _); [reflexivity|].
  destruct arg, (h_res h), (h_sock h); reflexivity.
Qed.

Lemma keeps_life_invoke (h : handler) (arg : option sock) :
  keeps life (invoke h arg).
Proof.
  intros w. destruct (handler_call_effects h arg w) as [a Ha]. rewrite Ha. cbn.
  apply life_with_trace, call_effects_no_end.
Qed.
#[local] Hint Resolve keeps_life_invoke : keeps.

Lemma keeps_life_next_socket (h : handler) : keeps life (next_socket h).
Proof.
  unfold next_socket, shift_sockets. life_auto.
  - match goal with w : World |- _ => destruct (sockets (self w)) end; life_auto.
  - match goal with o : option sock |- _ => destruct o end; life_auto.
Qed.
#[local] Hint Resolve keeps_life_next_socket : keeps.

Lemma keeps_life_process_waiting : keeps life _process_waiting.
Proof.
  intros w. rewrite process_waiting_eq. destruct (waiting (self w)); reflexivity.
Qed.
#[local] Hint Resolve keeps_life_process_waiting : keeps.

Lemma keeps_life_finally (s : sock) : keeps life (next_socket_finally s).
Proof.
  intros w. rewrite next_socket_finally_eq. cbv zeta.
  destruct (bool_decide (s ∈ destroyed (env w)));
    match goal with |- context [if ?c then _ else _] => destruct c end;
    try reflexivity; rewrite keeps_life_process_waiting; reflexivity.
Qed.
#[local] Hint Resolve keeps_life_finally : keeps.

Lemma exec_life (m : M World unit) (w : World) :
  life (exec m w) = life (final (m w)).
Proof.
  unfold exec. destruct (m w); [reflexivity|].
  apply (life_with_trace [_]). reflexivity.
Qed.

Lemma cleanup_life (w : World) :
  life (final (_cleanup w)) =
    (server (self w), started (self w), false, admitted (env w), S (ends w)).
Proof.
  assert (Hz : forall hs, emitted "end"
                 (flat_map (fun h => call_effects w h None) hs) = 0).
  { induction hs as [|h hs IH]; [reflexivity|]. cbn [flat_map].
    rewrite emitted_app, call_effects_no_end, IH. reflexivity. }
  rewrite cleanup_effects. unfold life, ends. cbn -[call_effects emitted].
  rewrite !emitted_app, Hz.
  change (emitted "end" [Emit "end"]) with 1.
  f_equal. lia.
Qed.

(** What one callback does to the life cycle. *)
Lemma step_life_move (ev : event) (w : World) :
  life_move (life w) (life (step ev w)).
Proof.
  unfold step. destruct (enabled ev w) eqn:Hen; [|constructor].
  assert (Hsame : forall m, keeps life m -> life_move (life w) (life (exec m w))).
  { intros m Hk. rewrite exec_life, Hk. constructor. }
  destruct ev; cbn [handle].
  - (* Start *)
    assert (Hl : life (exec (do _ <- start os_port; ret tt) w) =
                 if started (self w) then life w
                 else (Listening, true, true, admitted (env w), ends w)).
    { rewrite exec_life. unfold start, bind, get. cbn.
      destruct (started (self w)); reflexivity. }
    rewrite Hl. unfold life. destruct (started (self w)); constructor.
  - (* Connection *)
    cbn in Hen. destruct (server (self w)) eqn:Hsv; try discriminate.
    assert (Hl : life (exec (_handle_socket s) w) =
                 if (max_tcp_sockets (self w) <=? Z.of_nat (length (sockets (self w))))%Z
                 then life w
                 else (Listening, started (self w), false,
                       admitted (env w) ++ [s], ends w)).
    { rewrite exec_life. unfold _handle_socket, bind, get.
      destruct (max_tcp_sockets (self w) <=? Z.of_nat (length (sockets (self w))))%Z;
        cbn -[_process_waiting].
      - apply (life_with_trace [_]). reflexivity.
      - rewrite keeps_life_process_waiting. unfold life. cbn. rewrite Hsv.
        reflexivity. }
    rewrite Hl. unfold life. rewrite Hsv.
    destruct (max_tcp_sockets (self w) <=? Z.of_nat (length (sockets (self w))))%Z;
      constructor.
  - (* ServerError *)
    apply Hsame. unfold on_server_error. life_auto.
  - (* NextSocket *)
    apply Hsame. life_auto.
  - (* PeerFinished *)
    apply Hsame. unfold on_peer_finished.
    destruct (h_sock h); [life_auto|]. destruct (h_res h); life_auto.
  - (* SocketError *)
    apply Hsame. unfold on_socket_error, destroy. life_auto.
  - (* SocketClose *)
    cbn in Hen. apply andb_true_iff in Hen as [Hadm _].
    apply bool_decide_eq_true in Hadm.
    assert (Hne : admitted (env w) <> []).
    { intros Hnil. rewrite Hnil in Hadm. inversion Hadm. }
    assert (Hl : exists b,
              life (exec (do _ <- modify (with_destroyed (fun d => {[s]} ∪ d));
                          do _ <- modify (with_closed (fun c => {[s]} ∪ c));
                          on_socket_close s) w) =
              (server (self w), started (self w), b, admitted (env w), ends w)).
    { rewrite exec_life. unfold on_socket_close, bind, get, modify.
      cbn -[_maybe_destroy].
      destruct (length (remove_first s (sockets (self w))) =? 0)%nat;
        cbn -[_maybe_destroy]; eexists; reflexivity. }
    destruct Hl as [b Hl]. rewrite Hl. unfold life. constructor. exact Hne.
  - (* TunnelEnd *)
    apply Hsame. life_auto.
  - (* ClientResFinished *)
    apply Hsame. life_auto.
  - (* Settle *)
    apply Hsame. life_auto.
    match goal with w : World |- _ =>
      destruct (settled_for s (pending (env w))) end; life_auto.
  - (* Timeout *)
    cbn in Hen.
    assert (Hl : life (exec (do _ <- modify (with_conn_timeout false); on_timeout) w) =
                 match server (self w) with
                 | Unbound =>
                     (Unbound, started (self w), false, admitted (env w), ends w)
                 | _ =>
                     (Closing, started (self w), false, admitted (env w), ends w)
                 end).
    { rewrite exec_life. unfold bind at 1. unfold modify.
      rewrite on_timeout_eq. cbn [final].
      change (server (self (with_conn_timeout false w))) with (server (self w)).
      destruct (server (self w)) eqn:Hsv; unfold life, ends; cbn;
        rewrite ?Hsv; reflexivity. }
    rewrite Hl. unfold life. rewrite Hen.
    destruct (server (self w)); constructor; discriminate.
  - (* ListenerClose *)
    cbn in Hen. destruct (server (self w)) eqn:Hsv; try discriminate.
    assert (Hl : life (exec (do _ <- modify (with_server Closed); _cleanup) w) =
                 (Closed, started (self w), false, admitted (env w), S (ends w))).
    { rewrite exec_life. unfold bind at 1. unfold modify.
      rewrite cleanup_life. reflexivity. }
    rewrite Hl. unfold life. rewrite Hsv. constructor.
  - (* Data *)
    apply Hsame. life_auto.
Qed.

Lemma life_ok_move x y : life_ok x -> life_move x y -> life_ok y.
Proof.
  intros Hok Hmove. destruct Hmove; unfold life_ok in *; cbn in *;
    try exact Hok;
    try (destruct l); intuition (try discriminate; try congruence; try lia).
Qed.

Lemma life_inv_step (ev : event) (w : World) :
  life_inv w -> life_inv (step ev w).
Proof.
  unfold life_inv. intros Hinv. eapply life_ok_move; [exact Hinv|].
  apply step_life_move.
Qed.

Lemma life_inv_run (evs : list event) (w : World) :
  life_inv w -> life_inv (run evs w).
Proof.
  revert w. induction evs as [|ev evs IH]; intros w Hinv; cbn; [exact Hinv|].
  apply IH, life_inv_step, Hinv.
Qed.

Lemma life_inv_fresh (opt : proxy_opt) : life_inv (fresh opt).
Proof.
  unfold life_inv, life, life_ok, ends. cbn.
  intuition (try discriminate; try congruence; try lia).
Qed.

(** X10.  A tunnel emits 'end' only after its listener was closed: in no
    state it reaches has 'end' been emitted while the listener is still
    listening or not yet bound. *)
Theorem end_only_after_close (opt : proxy_opt) (evs : list event)
    (Hend : 0 < ends (run evs (fresh opt))) :
  shut (server (self (run evs (fresh opt)))) = true.
Proof.
  pose proof (life_inv_run evs (fresh opt) (life_inv_fresh opt)) as Hinv.
  unfold life_inv, life, life_ok in Hinv. destruct Hinv as (_ & _ & He).
  apply He, Hend.
Qed.

Lemma end_only_after_close_witness :
  shut (server (self (run timer_on_closed_listener (fresh default_opt)))) = true.
Proof.
  apply end_only_after_close. vm_compute. lia.
Defined.

Lemma shut_move l st timer adm n y :
  shut l = true -> st = true ->
  life_move (l, st, timer, adm, n) y ->
  exists l' timer' n', y = (l', true, timer', adm, n') /\ shut l' = true.
Proof.
  intros Hshut Hst Hmove. inversion Hmove; subst; try discriminate; eauto.
Qed.

(** X11.  Closing is final: once the listener of a tunnel is closing or
    closed, whatever happens afterwards, also a further [start], it never
    listens again and no further socket is admitted. *)
Theorem closed_stays_closed (opt : proxy_opt) (evs1 evs2 : list event)
    (Hshut : shut (server (self (run evs1 (fresh opt)))) = true) :
  shut (server (self (run (evs1 ++ evs2) (fresh opt)))) = true /\
  admitted (env (run (evs1 ++ evs2) (fresh opt))) =
    admitted (env (run evs1 (fresh opt))).
Proof.
  rewrite run_app. set (w1 := run evs1 (fresh opt)) in *.
  assert (Hst : started (self w1) = true).
  { pose proof (life_inv_run evs1 (fresh opt) (life_inv_fresh opt)) as Hinv.
    fold w1 in Hinv. unfold life_inv, life, life_ok in Hinv.
    destruct Hinv as (_ & Hb & _). apply Hb.
    destruct (server (self w1)); discriminate. }
  clearbody w1. revert w1 Hshut Hst.
  induction evs2 as [|ev evs2 IH]; intros w1 Hshut Hst; [split; [exact Hshut|reflexivity]|].
  cbn [run fold_left]. fold (run evs2 (step ev w1)).
  pose proof (step_life_move ev w1) as Hmove. unfold life at 1 in Hmove.
  destruct (shut_move _ _ _ _ _ _ Hshut Hst Hmove) as (l' & t' & n' & Hy & Hl').
  unfold life in Hy. injection Hy as H1 H2 _ H4 _.
  destruct (IH (step ev w1)) as [IH1 IH2]; [rewrite H1; exact Hl' | exact H2 |].
  split; [exact IH1 | rewrite IH2; exact H4].
Qed.

Lemma closed_stays_closed_witness :
  shut (server (self (run (timer_on_closed_listener ++ [Start 4001; Connection 11])
                          (fresh default_opt)))) = true /\
  admitted (env (run (timer_on_closed_listener ++ [Start 4001; Connection 11])
                     (fresh default_opt))) =
    admitted (env (run timer_on_closed_listener (fresh default_opt))).
Proof.
  apply closed_stays_closed. vm_compute. reflexivity.
Defined.

(** * Further properties of the server module *)

Lemma append_assoc (a b c : string) : (a +:+ b) +:+ c = a +:+ (b +:+ c).
Proof.
  induction a as [|x a IH]; [reflexivity|].
  change (String x ((a +:+ b) +:+ c) = String x (a +:+ (b +:+ c))).
  rewrite IH. reflexivity.
Qed.

Lemma concat_crlf_lines (x : string) (xs : list string) :
  String.concat CRLF (x :: xs ++ [EmptyString; EmptyString]) =
    crlf_lines (x :: xs) +:+ CRLF.
Proof.
  revert x. induction xs as [|y ys IH]; intros x.
  - change (x +:+ CRLF +:+ CRLF = (x +:+ CRLF +:+ EmptyString) +:+ CRLF).
    rewrite append_assoc. reflexivity.
  - change (x +:+ CRLF +:+ String.concat CRLF (y :: ys ++ [EmptyString; EmptyString])
            = (x +:+ CRLF +:+ crlf_lines (y :: ys)) +:+ CRLF).
    rewrite IH, !append_assoc. reflexivity.
Qed.

(** X12.  The preamble written for an upgrade is the request line and then
    one line per header pair, every line followed by CR LF, and one more
    CR LF at the end: a well-formed HTTP request head with no body. *)
Theorem preamble_is_request_head (req : request) :
  preamble req =
    crlf_lines (request_line req :: header_lines (rawHeaders req)) +:+ CRLF.
Proof. unfold preamble. apply concat_crlf_lines. Qed.

(** X13.  The header lines follow the raw headers pair by pair, in their
    order and with duplicates kept; a header name left without a value at
    the end is dropped. *)
Theorem header_lines_follow_raw_headers (kvs : list (string * string)) (x : string) :
  header_lines (raw_of kvs) = map header_line kvs /\
  header_lines (raw_of kvs ++ [x]) = map header_line kvs.
Proof.
  induction kvs as [|[k v] kvs [IH1 IH2]]; [split; reflexivity|].
  split.
  - change (header_line (k, v) :: header_lines (raw_of kvs)
            = header_line (k, v) :: map header_line kvs).
    rewrite IH1. reflexivity.
  - change (header_line (k, v) :: header_lines (raw_of kvs ++ [x])
            = header_line (k, v) :: map header_line kvs).
    rewrite IH2. reflexivity.
Qed.

Lemma lower_alnum_spec (c : ascii) :
  lower_alnum c = true <-> c ∈ lower_alnum_chars.
Proof.
  assert (H : lower_alnum c = bool_decide (c ∈ lower_alnum_chars)).
  { destruct c as [[] [] [] [] [] [] [] []]; vm_compute; reflexivity. }
  rewrite H. apply bool_decide_eq_true.
Qed.

(** X14.  The test of a requested id accepts exactly the strings of 4 to
    63 characters that are all lowercase letters or digits. *)
Theorem valid_req_id_spec (id : string) :
  valid_req_id id = true <->
  4 <= String.length id <= 63 /\
  forall c, c ∈ list_ascii_of_string id -> c ∈ lower_alnum_chars.
Proof.
  unfold valid_req_id. rewrite !andb_true_iff, !Nat.leb_le, forallb_forall.
  split.
  - intros [Hlen Hall]. split; [lia|].
    intros c Hc. apply lower_alnum_spec, Hall, list_elem_of_In, Hc.
  - intros [Hlen Hall]. split; [lia|].
    intros c Hc. apply lower_alnum_spec, Hall, list_elem_of_In, Hc.
Qed.

(** ** The registry *)

(** X15.  [new_client] never reports an error.  It registers a started,
    listening tunnel under the requested id, or under the next random id
    when the requested one is in use, counts it in [stats.tunnels], and
    hands back the port, the cap and the id it registered; nothing else in
    the registry changes. *)
Theorem new_client_registers (rand_id : nat -> string) (id : string)
    (opt : options) (os_port : nat) (s : ServerState) :
  let taken := bool_decide (is_Some (clients s !! id)) in
  let id' := if taken then rand_id (rand_calls s) else id in
  new_client rand_id id opt os_port s =
    Ok (inr {| i_port := os_port;
               i_max_conn_count := max_tcp_sockets (listening_proxy id' opt os_port);
               i_id := id';
               i_url := None |})
       {| clients := <[id' := listening_proxy id' opt os_port]> (clients s);
          tunnels := Z.succ (tunnels s);
          rand_calls := if taken then S (rand_calls s) else rand_calls s;
          senv := senv s |}.
Proof.
  cbv zeta. unfold new_client, next_rand_id, bind, get, gets, modify, with_client.
  cbn -[insert lookup delete].
  destruct opt as [sec [[|n|n]|]];
    destruct (bool_decide (is_Some (clients s !! id)));
    cbn -[insert lookup delete];
    unfold put_client, with_tunnels, with_clients, listening_proxy;
    cbn -[insert lookup delete];
    rewrite insert_insert_eq; reflexivity.
Qed.

(** X16.  The substitute for an id in use is not checked: when the random
    id is in use as well, the new tunnel takes its place in the registry.
    The registry keeps its size while the tunnel count goes up by one, and
    the tunnel that was registered under that id can no longer be looked
    up. *)
Theorem substitute_id_not_checked (rand_id : nat -> string) (id : string)
    (opt : options) (os_port : nat) (s : ServerState)
    (Htaken : is_Some (clients s !! id))
    (Hboth : is_Some (clients s !! rand_id (rand_calls s))) :
  let s' := final (new_client rand_id id opt os_port s) in
  clients s' !! rand_id (rand_calls s) =
    Some (listening_proxy (rand_id (rand_calls s)) opt os_port) /\
  base.size (clients s') = base.size (clients s) /\
  tunnels s' = (tunnels s + 1)%Z.
Proof.
  cbv zeta. rewrite new_client_registers.
  rewrite bool_decide_true by exact Htaken. cbn.
  split; [apply lookup_insert_eq|]. split; [|lia].
  apply map_size_insert_Some, Hboth.
Qed.

Lemma substitute_id_not_checked_witness :
  clients (final (new_client (fun _ => "abcd") "abcd" sample_options 4001 abcd_taken))
    !! "abcd" = Some (listening_proxy "abcd" sample_options 4001) /\
  base.size (clients (final (new_client (fun _ => "abcd") "abcd" sample_options 4001
                               abcd_taken))) = base.size (clients abcd_taken) /\
  tunnels (final (new_client (fun _ => "abcd") "abcd" sample_options 4001 abcd_taken))
    = (tunnels abcd_taken + 1)%Z.
Proof.
  apply (substitute_id_not_checked (fun _ => "abcd") "abcd" sample_options 4001
           abcd_taken); vm_compute; eexists; reflexivity.
Defined.

(** X17.  Creating a tunnel under a free id and then handling its 'end'
    leaves the server state as it was before: the registry entry is gone
    and the tunnel count is back. *)
Theorem new_client_then_end (rand_id : nat -> string) (id : string)
    (opt : options) (os_port : nat) (s : ServerState)
    (Hfree : clients s !! id = None) :
  final (on_client_end id (final (new_client rand_id id opt os_port s))) = s.
Proof.
  rewrite new_client_registers.
  rewrite bool_decide_false by (rewrite Hfree; intros [x Hx]; discriminate).
  unfold on_client_end, bind, modify, with_tunnels, with_clients. cbn.
  rewrite delete_insert_id by exact Hfree. rewrite Z.pred_succ.
  destruct s. reflexivity.
Qed.

Lemma new_client_then_end_witness :
  final (on_client_end "wxyz"
           (final (new_client rand_wxyz "wxyz" sample_options 4001 abcd_taken)))
    = abcd_taken.
Proof.
  apply new_client_then_end. vm_compute. reflexivity.
Defined.

(** ** The management routes *)

(** X18.  The route [/:req_id] creates a tunnel exactly for the ids that
    pass the test: any other id is answered with 403 and the server state is
    untouched, no random id drawn and nothing registered; an id that passes
    always gets a 200 whose url names the requested id. *)
Theorem req_id_route_gate (rand_id : nat -> string) (req_id : string)
    (req_host : option string) (opt : options) (os_port : nat) (s : ServerState) :
  (valid_req_id req_id = false ->
   get_req_id rand_id req_id req_host opt os_port s =
     Ok (ErrorJson 403
           "Invalid subdomain. Subdomains must be lowercase and between 4 and 63 alphanumeric characters.")
        s) /\
  (valid_req_id req_id = true ->
   exists info s',
     get_req_id rand_id req_id req_host opt os_port s = Ok (Json 200 info) s' /\
     i_url info = Some (schema opt +:+ "://" +:+ req_id +:+ "." +:+ js_string req_host) /\
     clients s' !! i_id info = Some (listening_proxy (i_id info) opt os_port)).
Proof.
  split; intros Hv; unfold get_req_id; rewrite Hv; cbn [negb]; [reflexivity|].
  unfold bind at 1. rewrite new_client_registers. cbv zeta.
  cbn -[listening_proxy]. eexists _, _. split; [reflexivity|].
  split; [reflexivity|]. cbn -[listening_proxy]. apply lookup_insert_eq.
Qed.

(** X19.  [GET /?new] draws one random id; when that id is free the
    response carries it as its id and in its url, and the tunnel is
    registered under it.  Without the query parameter the route passes the
    request on and nothing changes. *)
Theorem root_route_creates (rand_id : nat -> string)
    (req_host : option string) (opt : options) (os_port : nat) (s : ServerState)
    (Hfree : clients s !! rand_id (rand_calls s) = None) :
  get_root rand_id false req_host opt os_port s = Ok NextRoute s /\
  exists s',
    get_root rand_id true req_host opt os_port s =
      Ok (Json 200
            {| i_port := os_port;
               i_max_conn_count :=
                 max_tcp_sockets (listening_proxy (rand_id (rand_calls s)) opt os_port);
               i_id := rand_id (rand_calls s);
               i_url := Some (schema opt +:+ "://" +:+ rand_id (rand_calls s)
                              +:+ "." +:+ js_string req_host) |}) s' /\
    rand_calls s' = S (rand_calls s) /\
    clients s' = <[rand_id (rand_calls s) :=
                     listening_proxy (rand_id (rand_calls s)) opt os_port]> (clients s).
Proof.
  split; [reflexivity|].
  unfold get_root. cbn [negb]. unfold bind at 1. unfold next_rand_id at 1.
  unfold bind at 1, gets. unfold bind at 1, modify. cbn [ret].
  unfold bind at 1. rewrite new_client_registers. cbv zeta.
  cbn [clients with_rand_calls rand_calls].
  rewrite bool_decide_false by (rewrite Hfree; intros [x Hx]; discriminate).
  cbn -[listening_proxy]. eexists. split; [reflexivity|]. split; reflexivity.
Qed.

Lemma root_route_creates_witness :
  exists s',
    get_root rand_wxyz true (Some "example.com") sample_options 4001 abcd_taken =
      Ok (Json 200
            {| i_port := 4001;
               i_max_conn_count := 10;
               i_id := "wxyz";
               i_url := Some "http://wxyz.example.com" |}) s'.
Proof.
  destruct (root_route_creates rand_wxyz (Some "example.com") sample_options 4001
              abcd_taken) as (_ & s' & H & _).
  - vm_compute. reflexivity.
  - exists s'. exact H.
Defined.

(** ** The dispatcher *)

Lemma next_socket_ok (h : handler) (w : World) :
  exists w', next_socket h w = Ok tt w'.
Proof.
  unfold next_socket, shift_sockets, bind, get.
  destruct (sockets (self w)) as [|s rest]; cbn -[invoke]; [eauto|].
  destruct (handler_call_effects h (Some s) (with_sockets (fun _ => rest) w))
    as [a Ha].
  rewrite Ha. eauto.
Qed.

Lemma maybe_bounce_routed (getSubdomain : string -> option string)
    (p : nat) (req : request) (res sock : bool) (head : option string)
    (s : ServerState) :
  match routed getSubdomain req with
  | None => maybe_bounce getSubdomain p req res sock head s = Ok false s
  | Some _ => exists s', maybe_bounce getSubdomain p req res sock head s = Ok true s'
  end.
Proof.
  unfold routed, maybe_bounce, bind, get. cbn -[truthy next_socket].
  destruct (truthy (host req)) as [hostname|]; [|reflexivity].
  cbn -[truthy next_socket].
  destruct (truthy (getSubdomain hostname)) as [sub|]; [|reflexivity].
  destruct (clients s !! sub) as [client|].
  - unfold modify, with_client. cbn -[next_socket].
    destruct (sock || res); cbn -[next_socket]; [|eauto].
    destruct sock; cbn -[next_socket];
      match goal with |- context [next_socket ?h ?w] =>
        destruct (next_socket_ok h w) as [w' Hw]; rewrite Hw end; eauto.
  - destruct res; [|destruct sock]; cbn; eauto.
Qed.

(** X20.  The dispatcher never throws and takes every request that names
    a subdomain.  A request whose Host header is missing or empty, or names
    no subdomain, is left alone: an ordinary request goes on to the
    management app with the server state untouched, an upgrade gets its
    peer socket destroyed and nothing else happens. *)
Theorem dispatcher_takes_subdomain_requests
    (getSubdomain : string -> option string)
    (p : nat) (req : request) (head : option string) (s : ServerState) :
  (routed getSubdomain req = None ->
   on_request getSubdomain p req s = Ok false s /\
   on_upgrade getSubdomain p req head s =
     Ok tt (with_senv (env_trace (fun t => t ++ [Destroy (Peer p)])) s)) /\
  (forall sub, routed getSubdomain req = Some sub ->
   (exists s', on_request getSubdomain p req s = Ok true s') /\
   (exists s', on_upgrade getSubdomain p req head s = Ok tt s')).
Proof.
  split.
  - intros Hr.
    pose proof (maybe_bounce_routed getSubdomain p req true false None s) as H1.
    pose proof (maybe_bounce_routed getSubdomain p req false true head s) as H2.
    rewrite Hr in H1, H2. unfold on_request, on_upgrade, bind.
    cbn -[maybe_bounce]. rewrite H1, H2. split; reflexivity.
  - intros sub Hr.
    pose proof (maybe_bounce_routed getSubdomain p req true false None s) as H1.
    pose proof (maybe_bounce_routed getSubdomain p req false true head s) as H2.
    rewrite Hr in H1, H2. destruct H1 as [s1 H1], H2 as [s2 H2].
    unfold on_request, on_upgrade, bind. cbn -[maybe_bounce].
    rewrite H1, H2. split; eauto.
Qed.

(** X21.  A request for a subdomain nobody registered is answered on the
    spot and changes nothing else: an ordinary request gets 502 with the
    body naming the subdomain and its connection is destroyed, an upgrade
    gets its peer socket destroyed. *)
Theorem unknown_subdomain_is_refused
    (getSubdomain : string -> option string)
    (p : nat) (req : request) (head : option string) (s : ServerState)
    (sub : string)
    (Hr : routed getSubdomain req = Some sub)
    (Hnone : clients s !! sub = None) :
  on_request getSubdomain p req s =
    Ok true (with_senv (env_trace (fun t => t ++
               [Respond p 502 ("no active client for '" +:+ sub +:+ "'");
                ConnDestroy p])) s) /\
  on_upgrade getSubdomain p req head s =
    Ok tt (with_senv (env_trace (fun t => t ++ [Destroy (Peer p)])) s).
Proof.
  unfold routed in Hr.
  destruct (truthy (host req)) as [hostname|] eqn:Hh; [|discriminate].
  unfold on_request, on_upgrade, maybe_bounce, bind, get.
  cbn -[truthy]. rewrite Hh. cbn -[truthy]. rewrite Hr, Hnone.
  unfold semit, modify, with_senv, env_trace. cbn.
  destruct s as [c t r []]. cbn. rewrite <- app_assoc. split; reflexivity.
Qed.

Lemma unknown_subdomain_is_refused_witness :
  on_request sample_getSubdomain 3 sample_request empty_server =
    Ok true (with_senv (env_trace (fun t => t ++
               [Respond 3 502 "no active client for 'abcd'"; ConnDestroy 3]))
               empty_server).
Proof.
  refine (proj1 (unknown_subdomain_is_refused sample_getSubdomain 3 sample_request
                   None empty_server "abcd" eq_refl _)).
  vm_compute. reflexivity.
Defined.

(** X22.  A request for a registered tunnel that has no idle socket waits
    in the queue of that tunnel: its handler goes to the tail of that queue,
    no other tunnel, no counter and no connection is touched, and nothing is
    answered yet. *)
Theorem request_waits_in_its_tunnel
    (getSubdomain : string -> option string)
    (p : nat) (req : request) (s : ServerState) (sub : string) (client : Proxy)
    (Hr : routed getSubdomain req = Some sub)
    (Hclient : clients s !! sub = Some client)
    (Hnone : sockets client = []) :
  exists s',
    on_request getSubdomain p req s = Ok true s' /\
    clients s' !! sub =
      Some (self (with_waiting
                    (fun q => q ++ [{| h_id := p; h_req := req;
                                       h_res := true; h_sock := false |}])
                    {| self := client; env := senv s |})) /\
    (forall other, other <> sub -> clients s' !! other = clients s !! other) /\
    tunnels s' = tunnels s /\
    trace (senv s') = trace (senv s) /\
    pending (senv s') = pending (senv s).
Proof.
  unfold routed in Hr.
  destruct (truthy (host req)) as [hostname|] eqn:Hh; [|discriminate].
  unfold on_request, maybe_bounce, bind, get.
  cbn -[truthy insert lookup]. rewrite Hh. cbn -[truthy insert lookup].
  rewrite Hr, Hclient.
  unfold modify, with_client, next_socket, shift_sockets, bind, get.
  cbn -[insert lookup]. rewrite Hnone. cbn -[insert lookup].
  eexists. split; [reflexivity|]. cbn -[insert lookup].
  split.
  { rewrite lookup_insert_eq. unfold with_waiting, on_self. cbn.
    rewrite Hnone. reflexivity. }
  split; [intros other Hne; apply lookup_insert_ne; congruence|].
  repeat split.
Qed.

Lemma request_waits_in_its_tunnel_witness :
  exists s',
    on_request sample_getSubdomain 3 sample_request abcd_taken = Ok true s' /\
    (forall other, other <> "abcd" -> clients s' !! other = clients abcd_taken !! other) /\
    trace (senv s') = trace (senv abcd_taken).
Proof.
  destruct (request_waits_in_its_tunnel sample_getSubdomain 3 sample_request
              abcd_taken "abcd" (listening_proxy "abcd" sample_options 4000))
    as (s' & H1 & _ & H3 & _ & H5 & _).
  - reflexivity.
  - vm_compute. reflexivity.
  - reflexivity.
  - exists s'. repeat split; assumption.
Defined.

(** * Sockets that closed *)

Lemma keeps_calls_process_waiting : keeps calls _process_waiting.
Proof.
  intros w. rewrite process_waiting_eq. destruct (waiting (self w)); reflexivity.
Qed.
#[local] Hint Resolve keeps_calls_process_waiting : keeps.

(** What one callback adds to the handler calls: a call with a socket hands
    out a socket that was idle. *)
Lemma step_calls (ev : event) (w : World) :
  exists extra,
    calls (step ev w) = calls w ++ extra /\
    forall h s, (h, Some s) ∈ extra -> s ∈ sockets (self w).
Proof.
  unfold step. destruct (enabled ev w) eqn:Hen;
    [|exists []; rewrite app_nil_r; split; [reflexivity | intros ? ? H; inversion H]].
  assert (Hsame : forall m, keeps calls m ->
            exists extra, calls (exec m w) = calls w ++ extra /\
              forall h s, (h, Some s) ∈ extra -> s ∈ sockets (self w)).
  { intros m Hk. exists []. rewrite app_nil_r, exec_calls, Hk.
    split; [reflexivity | intros ? ? H; inversion H]. }
  assert (Hnull : forall hs : list handler, forall h s,
            (h, Some s) ∈ map (fun h0 => (h_id h0, @None sock)) hs -> s ∈ sockets (self w)).
  { intros hs h s Hin. apply list_elem_of_fmap in Hin as (h0 & Heq & _). discriminate. }
  destruct ev; cbn [handle].
  - apply Hsame. unfold start. keeps_auto;
      try (match goal with w : World |- _ => destruct (started (self w)) end);
      keeps_auto;
      unfold _maybe_destroy, clearTimeout, setTimeout; keeps_auto.
  - apply Hsame. unfold _handle_socket, emit. keeps_auto;
      try (match goal with |- context [if ?c then _ else _] => destruct c end);
      unfold clearTimeout; keeps_auto.
  - apply Hsame. unfold on_server_error. keeps_auto.
  - (* NextSocket *)
    pose proof (next_socket_calls h w) as Hc. rewrite <- exec_calls in Hc.
    destruct (sockets (self w)) as [|s rest].
    + exists []. rewrite app_nil_r. split; [exact Hc | intros ? ? H; inversion H].
    + exists [(h_id h, Some s)]. split; [exact Hc|].
      intros h0 s0 Hin. apply list_elem_of_singleton in Hin.
      injection Hin as _ ->. left.
  - apply Hsame. unfold on_peer_finished, emit.
    destruct (h_sock h); [keeps_auto|]. destruct (h_res h); keeps_auto.
  - apply Hsame. unfold on_socket_error, destroy, emit. keeps_auto.
  - apply Hsame. unfold on_socket_close, _maybe_destroy, clearTimeout, setTimeout.
    keeps_auto.
  - apply Hsame. keeps_auto.
  - apply Hsame. keeps_auto.
  - apply Hsame. keeps_auto;
      try (match goal with w : World |- _ =>
             destruct (settled_for s (pending (env w))) end);
      keeps_auto;
      unfold next_socket_finally; keeps_auto;
      try (match goal with |- context [if ?c then _ else _] => destruct c end);
      keeps_auto.
  - (* Timeout *)
    rewrite exec_calls. unfold bind at 1. unfold modify. rewrite on_timeout_eq.
    exists []. rewrite app_nil_r.
    split; [|intros ? ? H; inversion H].
    change (server (self (with_conn_timeout false w))) with (server (self w)).
    destruct (server (self w)); reflexivity.
  - (* ListenerClose *)
    rewrite exec_calls. unfold bind at 1. unfold modify.
    match goal with |- context [_cleanup ?w1] =>
      destruct (cleanup_notifies_each_waiter w1) as [Hc _];
      eexists; split; [exact Hc | apply Hnull]
    end.
  - apply Hsame. unfold emit. keeps_auto.
Qed.

Lemma exec_closed (m : M World unit) (w : World) :
  closed (env (exec m w)) = closed (env (final (m w))).
Proof. unfold exec. destruct (m w); reflexivity. Qed.

Lemma core_closed (w w' : World) :
  core w' = core w -> closed (env w') = closed (env w).
Proof. unfold core. intros Hc. injection Hc as _ _ _ _ ->. reflexivity. Qed.

Lemma step_closed_mono (ev : event) (w : World) (s : sock) :
  s ∈ closed (env w) -> s ∈ closed (env (step ev w)).
Proof.
  intros Hs. unfold step. destruct (enabled ev w); [|exact Hs].
  rewrite exec_closed.
  assert (Hk : forall m : M World unit, keeps core m -> s ∈ closed (env (final (m w)))).
  { intros m Hm. rewrite (core_closed w _ (Hm w)). exact Hs. }
  destruct ev; cbn [handle].
  - apply Hk. keeps_auto.
  - pose proof (handle_socket_core s0 w) as Hc. unfold core in Hc.
    destruct (max_tcp_sockets (self w) <=? Z.of_nat (length (sockets (self w))))%Z;
      injection Hc as _ _ _ _ ->; exact Hs.
  - apply Hk. unfold on_server_error. keeps_auto.
  - pose proof (next_socket_core h w) as Hc. unfold core in Hc.
    destruct (sockets (self w)); injection Hc as _ _ _ _ ->; exact Hs.
  - apply Hk. unfold on_peer_finished.
    destruct (h_sock h); [keeps_auto|]. destruct (h_res h); keeps_auto.
  - exact Hs.
  - set (w1 := with_closed (fun c => {[s0]} ∪ c)
                 (with_destroyed (fun d => {[s0]} ∪ d) w)).
    change (s ∈ closed (env (final (on_socket_close s0 w1)))).
    pose proof (on_socket_close_core s0 w1) as Hc. unfold core in Hc.
    injection Hc as _ _ _ _ ->. cbn. apply elem_of_union. right. exact Hs.
  - destruct flushed; exact Hs.
  - exact Hs.
  - unfold bind at 1, get.
    destruct (settled_for s0 (pending (env w))) as [p|]; [|exact Hs].
    set (w1 := with_pending (remove_promise s0) w).
    assert (Hfin : closed (env (final (next_socket_finally s0 w1))) = closed (env w)).
    { pose proof (next_socket_finally_core s0 w1) as Hc. unfold core in Hc.
      injection Hc as _ _ _ _ ->. reflexivity. }
    destruct (p_await p);
      change (s ∈ closed (env (final (next_socket_finally s0 w1))));
      rewrite Hfin; exact Hs.
  - apply Hk. keeps_auto.
  - apply Hk. keeps_auto.
  - apply Hk. keeps_auto.
Qed.

Lemma run_closed_mono (evs : list event) (w : World) (s : sock) :
  s ∈ closed (env w) -> s ∈ closed (env (run evs w)).
Proof.
  revert w. induction evs as [|ev evs IH]; intros w Hs; [exact Hs|].
  cbn [run fold_left]. apply IH, step_closed_mono, Hs.
Qed.

Lemma lent_to_app (s : sock) (cs1 cs2 : list (nat * option sock)) :
  lent_to s (cs1 ++ cs2) = lent_to s cs1 ++ lent_to s cs2.
Proof.
  induction cs1 as [|[h [s'|]] cs1 IH]; cbn; [reflexivity| |exact IH].
  destruct (decide (s' = s)); cbn; rewrite IH; reflexivity.
Qed.

Lemma lent_to_none (s : sock) (cs : list (nat * option sock)) :
  (forall h, (h, Some s) ∉ cs) -> lent_to s cs = [].
Proof.
  induction cs as [|[h [s'|]] cs IH]; intros Hno; cbn; [reflexivity| |].
  - destruct (decide (s' = s)) as [->|Hne].
    + exfalso. apply (Hno h). left.
    + apply IH. intros h' Hin. apply (Hno h'). right. exact Hin.
  - apply IH. intros h' Hin. apply (Hno h'). right. exact Hin.
Qed.

(** X23.  A socket whose 'close' was emitted is never handed to a handler
    again: whatever happens afterwards, the list of the handlers that were
    called with that socket, repeated calls included, stays as it is. *)
Theorem closed_socket_never_lent (opt : proxy_opt) (evs1 evs2 : list event)
    (s : sock)
    (Hclosed : s ∈ closed (env (run evs1 (fresh opt)))) :
  lent_to s (calls (run (evs1 ++ evs2) (fresh opt))) =
    lent_to s (calls (run evs1 (fresh opt))).
Proof.
  induction evs2 as [|ev evs2 IH] using rev_ind.
  - rewrite app_nil_r. reflexivity.
  - rewrite app_assoc, run_app. cbn [run fold_left].
    set (w := run (evs1 ++ evs2) (fresh opt)) in *.
    destruct (step_calls ev w) as (extra & Hc & Hidle).
    rewrite Hc, lent_to_app, IH.
    rewrite (lent_to_none s extra); [apply app_nil_r|].
    intros h Hin.
    pose proof (pool_inv_run (evs1 ++ evs2) (fresh opt) (pool_inv_fresh opt)) as Hinv.
    fold w in Hinv. destruct Hinv as (_ & _ & _ & _ & Hcl).
    assert (Hsw : s ∈ closed (env w)).
    { unfold w. rewrite run_app. apply run_closed_mono, Hclosed. }
    destruct (Hcl s Hsw) as (_ & _ & Hni). apply Hni. eapply Hidle, Hin.
Qed.

Lemma closed_socket_never_lent_witness :
  lent_to 7 (calls (run (served_then_closed ++
                           [ClientResFinished 7; Settle 7; Connection 8;
                            NextSocket (http_handler 0)])
                        (fresh default_opt))) = [0].
Proof.
  rewrite (closed_socket_never_lent default_opt served_then_closed
             [ClientResFinished 7; Settle 7; Connection 8;
              NextSocket (http_handler 0)] 7).
  - reflexivity.
  - vm_compute. set_solver.
Defined.

(** * Release and reuse *)

Lemma completion_state (upgrade : bool) (w : World) (s : sock) (h : handler)
    (ps1 ps2 : list promise) :
  pending (env w) =
    ps1 ++ {| p_sock := s; p_handler := h; p_await := awaited upgrade |} :: ps2 ->
  s ∉ map p_sock (ps1 ++ ps2) ->
  waiting (self w) = [] ->
  s ∉ destroyed (env w) ->
  run [completion upgrade s; Settle s] w =
    with_sockets (fun l => l ++ [s]) (with_pending (fun _ => ps1 ++ ps2) w).
Proof.
  intros Hpend Hs Hwait Hlive.
  rewrite map_app in Hs. apply not_elem_of_app in Hs as [Hs1 Hs2].
  set (settled := {| p_sock := s; p_handler := h; p_await := Settled |}).
  set (w1 := with_pending (fun _ => ps1 ++ settled :: ps2) w).
  assert (H1 : step (completion upgrade s) w = w1).
  { unfold w1, with_pending, on_env.
    destruct upgrade; unfold step, exec; cbn [completion enabled handle];
      rewrite ?bool_decide_false by exact Hlive; cbn;
      unfold modify, with_pending, on_env;
      cbn; rewrite Hpend; unfold resolve; rewrite map_app; cbn;
      rewrite bool_decide_true by reflexivity;
      [ fold (resolve AwaitTunnelEnd s ps1); fold (resolve AwaitTunnelEnd s ps2)
      | fold (resolve AwaitClientRes s ps1); fold (resolve AwaitClientRes s ps2) ];
      rewrite !resolve_other by assumption; reflexivity. }
  assert (Hfind : settled_for s (pending (env w1)) = Some settled).
  { change (pending (env w1)) with (ps1 ++ settled :: ps2).
    rewrite settled_for_other by assumption. unfold settled_for. cbn.
    rewrite bool_decide_true by reflexivity. reflexivity. }
  set (w2 := with_pending (fun _ => ps1 ++ ps2) w).
  assert (H2 : step (Settle s) w1 = exec (next_socket_finally s) w2).
  { unfold step. cbn [enabled]. rewrite Hfind.
    unfold exec, handle. unfold bind at 1, get. rewrite Hfind.
    unfold bind at 1, modify. unfold bind at 1. cbn [settled p_await when ret].
    replace (with_pending (remove_promise s) w1) with w2; [reflexivity|].
    unfold w1, w2, with_pending, on_env. cbn.
    rewrite remove_promise_other by assumption. cbn.
    rewrite bool_decide_true by reflexivity. reflexivity. }
  cbn [run fold_left]. rewrite H1, H2.
  unfold exec. rewrite next_socket_finally_eq. cbv zeta.
  change (destroyed (env w2)) with (destroyed (env w)).
  destruct (bool_decide_reflect (s ∈ destroyed (env w))); [contradiction|].
  rewrite process_waiting_eq.
  change (waiting (self (with_sockets (fun l => l ++ [s]) w2)))
    with (waiting (self w)). rewrite Hwait.
  destruct (length _ =? 0)%nat; reflexivity.
Qed.

(** X24.  Release and reuse: when the exchange on a lent socket that is
    not destroyed is over (the response has ended, or for an upgrade the
    tunnel socket signalled 'end' while a write to it was pending, so that
    the runtime has not destroyed it yet) and nobody is waiting, the socket
    goes to the tail of the idle list, the promise is gone and nothing else
    changes; with the idle list empty before, the next request is handed
    that very socket. *)
Theorem released_socket_is_reused
    (upgrade : bool) (w : World) (s : sock) (h h' : handler)
    (ps1 ps2 : list promise)
    (Hpend : pending (env w) =
               ps1 ++ {| p_sock := s; p_handler := h; p_await := awaited upgrade |}
                   :: ps2)
    (Hs : s ∉ map p_sock (ps1 ++ ps2))
    (Hwait : waiting (self w) = [])
    (Hlive : s ∉ destroyed (env w)) :
  run [completion upgrade s; Settle s] w =
    with_sockets (fun l => l ++ [s]) (with_pending (fun _ => ps1 ++ ps2) w) /\
  (sockets (self w) = [] ->
   calls (run [completion upgrade s; Settle s; NextSocket h'] w) =
     calls w ++ [(h_id h', Some s)]).
Proof.
  pose proof (completion_state upgrade w s h ps1 ps2 Hpend Hs Hwait Hlive) as Hc.
  split; [exact Hc|]. intros Hidle.
  change [completion upgrade s; Settle s; NextSocket h']
    with ([completion upgrade s; Settle s] ++ [NextSocket h']).
  rewrite run_app, Hc. cbn [run fold_left].
  set (w1 := with_sockets (fun l => l ++ [s]) (with_pending (fun _ => ps1 ++ ps2) w)).
  assert (Hstep : step (NextSocket h') w1 = exec (next_socket h') w1) by reflexivity.
  rewrite Hstep, exec_calls, next_socket_calls.
  unfold w1. cbn. rewrite Hidle. reflexivity.
Qed.

Lemma released_socket_is_reused_witness :
  calls (run [completion false 7; Settle 7; NextSocket (http_handler 1)] serving) =
    calls serving ++ [(1, Some 7)].
Proof.
  refine (proj2 (released_socket_is_reused false serving 7 (http_handler 0)
                   (http_handler 1) [] [] eq_refl _ eq_refl _) eq_refl).
  - vm_compute. set_solver.
  - vm_compute. set_solver.
Defined.

(** * The idle timer *)

(** X25.  When the only idle socket of a listening tunnel closes, the idle
    timer is armed.  If it fires, the listener is closed; if a new socket is
    admitted first, the timer is cleared and can no longer fire. *)
Theorem dial_cancels_idle_timer (w : World) (s s' : sock)
    (Hlistening : server (self w) = Listening)
    (Hidle : sockets (self w) = [s])
    (Hadm : s ∈ admitted (env w))
    (Hopen : s ∉ closed (env w))
    (Hnew : s' ∉ admitted (env w))
    (Hcap : (1 <= max_tcp_sockets (self w))%Z) :
  conn_timeout (self (step (SocketClose s) w)) = true /\
  sockets (self (step (SocketClose s) w)) = [] /\
  server (self (run [SocketClose s; Timeout] w)) = Closing /\
  conn_timeout (self (run [SocketClose s; Connection s'] w)) = false /\
  step Timeout (run [SocketClose s; Connection s'] w) =
    run [SocketClose s; Connection s'] w.
Proof.
  set (w0 := with_closed (fun c => {[s]} ∪ c) (with_destroyed (fun d => {[s]} ∪ d) w)).
  set (w1 := with_conn_timeout true (with_sockets (fun _ => []) w0)).
  assert (H1 : step (SocketClose s) w = w1).
  { unfold step. cbn [enabled]. rewrite bool_decide_true by exact Hadm.
    rewrite bool_decide_false by exact Hopen. cbn [negb andb].
    unfold exec, handle, on_socket_close, _maybe_destroy, clearTimeout, setTimeout,
      bind, get, modify. cbn. rewrite Hidle. cbn.
    destruct (decide (s = s)); [|congruence]. cbn.
    unfold w1, w0, with_conn_timeout, with_sockets, with_closed, with_destroyed,
      on_self, on_env. destruct w as [[] []]. cbn in *. subst. cbn.
    destruct (decide (s = s)); [reflexivity|congruence]. }
  cbn [run fold_left]. rewrite H1.
  split; [reflexivity|]. split; [reflexivity|].
  split.
  { unfold step. cbn [enabled]. unfold w1 at 1. cbn.
    unfold exec, on_timeout, try_catch, server_close, bind, get, modify. cbn.
    rewrite Hlistening. reflexivity. }
  assert (H2 : conn_timeout (self (step (Connection s') w1)) = false).
  { unfold step. cbn [enabled]. unfold w1 at 1. cbn. rewrite Hlistening.
    rewrite bool_decide_false by exact Hnew. cbn [negb].
    unfold exec, handle, _handle_socket, bind, get. cbn -[_process_waiting Z.leb].
    destruct (Z.leb_spec (max_tcp_sockets (self w)) (Z.of_nat 0)); [lia|].
    cbn -[_process_waiting]. rewrite process_waiting_eq.
    cbn. destruct (waiting (self w)); reflexivity. }
  split; [exact H2|].
  unfold step at 1. cbn [enabled]. rewrite H2. reflexivity.
Qed.

Lemma dial_cancels_idle_timer_witness :
  server (self (run [SocketClose 7; Timeout] one_idle)) = Closing /\
  step Timeout (run [SocketClose 7; Connection 8] one_idle) =
    run [SocketClose 7; Connection 8] one_idle.
Proof.
  destruct (dial_cancels_idle_timer one_idle 7 8) as (_ & _ & H3 & _ & H5).
  - reflexivity.
  - reflexivity.
  - vm_compute. left.
  - vm_compute. set_solver.
  - vm_compute. set_solver.
  - vm_compute. discriminate.
  - split; assumption.
Defined.

Lemma valid_req_id_spec_witness :
  4 <= String.length "abcd" <= 63 /\
  forall c, c ∈ list_ascii_of_string "abcd" -> c ∈ lower_alnum_chars.
Proof. apply (proj1 (valid_req_id_spec "abcd")). reflexivity. Defined.

Lemma req_id_route_gate_witness :
  get_req_id rand_wxyz "Ab" (Some "example.com") sample_options 4001 abcd_taken =
    Ok (ErrorJson 403
          "Invalid subdomain. Subdomains must be lowercase and between 4 and 63 alphanumeric characters.")
       abcd_taken.
Proof.
  apply (proj1 (req_id_route_gate rand_wxyz "Ab" (Some "example.com") sample_options
                  4001 abcd_taken)).
  reflexivity.
Defined.

Lemma dispatcher_takes_subdomain_requests_witness :
  on_request sample_getSubdomain 3
    {| method := "GET"; url := "/"; httpVersion := "1.1"; rawHeaders := [];
       host := None |} abcd_taken = Ok false abcd_taken.
Proof.
  apply (proj1 (dispatcher_takes_subdomain_requests sample_getSubdomain 3
                  {| method := "GET"; url := "/"; httpVersion := "1.1";
                     rawHeaders := []; host := None |} None abcd_taken)).
  reflexivity.
Defined.
